(** * big-spella-go: the game engine, the game service, mode rules and ranking

    A shallow embedding of
      - [internal/game/game.go]   (the [GameEngine] and the [gameService]),
      - [internal/game/word_service.go] ([ValidateSpelling],
        [TranscribeVoice]),
      - [internal/game/handler.go] ([Handler.MakeAttempt]),
      - the dictionary service ([GetHint], [GetWordInfo]),
      - package [auth]    (the request context and the middleware),
      - package [modes]   ([DefaultSettings], [ValidateSettings],
        [CalculateScore]),
      - package [ranking] ([CalculatePoints], [GetRankByPoints],
        [CalculateNewRating]),
    followed by the properties of the specification that were checked
    against it and by further properties of the code. *)

From Stdlib Require Import ZArith Lia Bool List String Ascii SpecFloat Reals Lra.
From stdpp Require Import base option gmap strings list pretty.

Local Open Scope Z_scope.

(** ** Go base types *)

(** Go's [int] on a 64-bit platform: a two's complement 64-bit integer.
    Values are carried as [Z]; arithmetic wraps through [int_wrap]. *)
Definition int_min : Z := - 2 ^ 63.
Definition int_max : Z := 2 ^ 63 - 1.
Definition int_wrap (z : Z) : Z := (z + 2 ^ 63) mod 2 ^ 64 - 2 ^ 63.
Definition is_int (z : Z) : Prop := int_min <= z <= int_max.

(** [time.Duration] is an int64 count of nanoseconds. *)
Definition Duration := Z.
Definition Nanosecond : Duration := 1.
Definition Second : Duration := 1000000000.
Definition Minute : Duration := 60 * Second.
Definition Hour : Duration := 60 * Minute.

(** [time.Time]: an instant, in nanoseconds on the monotonic clock.
    [Sub] saturates at the extreme durations, as [Time.Sub] documents. *)
Definition Time := Z.
Definition Sub (t u : Time) : Duration := Z.max int_min (Z.min int_max (t - u)).
(** [time.Since(t)] is [time.Now().Sub(t)]; the reading of the clock is
    passed in. *)
Definition Since (now t : Time) : Duration := Sub now t.

(** ** Package strings (the two functions the repository calls)

    Strings are sequences of bytes.  The two functions are modelled on
    their ASCII behaviour: a byte of 0x80 or more starts a multi-byte rune,
    for which the Go library consults the Unicode tables; those are not
    modelled, and every statement below about these functions is meant for
    ASCII strings. *)

Definition byte_of (c : ascii) : Z := Z.of_nat (nat_of_ascii c).

(** ASCII white space of [strings.TrimSpace]: tab, newline, vertical tab,
    form feed, carriage return, space. *)
Definition isSpace (c : ascii) : bool :=
  let b := byte_of c in
  (b =? 9) || (b =? 10) || (b =? 11) || (b =? 12) || (b =? 13) || (b =? 32).

Fixpoint trimLeft (s : string) : string :=
  match s with
  | EmptyString => EmptyString
  | String c s' => if isSpace c then trimLeft s' else s
  end.

(** Drops the trailing white space: a character is kept when it is not a
    space or when something is kept after it. *)
Fixpoint trimRight (s : string) : string :=
  match s with
  | EmptyString => EmptyString
  | String c s' =>
      match trimRight s' with
      | EmptyString => if isSpace c then EmptyString else String c EmptyString
      | r => String c r
      end
  end.

Definition TrimSpace (s : string) : string := trimRight (trimLeft s).

(** One step of the ASCII loop of [strings.EqualFold]: equal bytes, or an
    upper-case letter against its lower-case form. *)
Definition foldEq (sr tr : ascii) : bool :=
  let a := byte_of sr in
  let b := byte_of tr in
  if a =? b then true
  else
    let lo := Z.min a b in
    let hi := Z.max a b in
    (65 <=? lo) && (lo <=? 90) && (hi =? lo + 32).

Fixpoint EqualFold (s t : string) : bool :=
  match s, t with
  | EmptyString, EmptyString => true
  | String a s', String b t' => foldEq a b && EqualFold s' t'
  | _, _ => false
  end.

(** ** Package game: models *)

Definition HintType := string.
Definition HintTypeDefinition : HintType := "definition".
Definition HintTypeExampleSentence : HintType := "example_sentence".
Definition HintTypeEtymology : HintType := "etymology".
Definition HintTypeSentence : HintType := "sentence".
Definition HintTypePartOfSpeech : HintType := "part_of_speech".
Definition HintTypePronunciation : HintType := "pronunciation".
Definition HintTypePhonetic : HintType := "phonetic".
Definition HintTypeSynonym : HintType := "synonym".

Record Word := mkWord {
  word_ID : string;
  word_Word : string;
  word_Definition : string;
  word_ExampleSentence : string;
  word_Etymology : string;
  word_PartOfSpeech : string;
  word_Pronunciation : string;
  word_AudioURL : string;
}.

(** Go errors.  [ErrWrap msg e] is [fmt.Errorf(msg + ": %w", e)]. *)
Inductive error :=
  | ErrNoWordSet
  | ErrMaxHintsUsed
  | ErrTurnNotActive
  | ErrTurnTimedOut
  | ErrGameNotFound
  | ErrGameFull
  | ErrInvalidGameState
  | ErrNotPlayerTurn
  | ErrPlayerNotFound
  | ErrNoRows
  | ErrNew (msg : string)
  | ErrWrap (msg : string) (e : error).

(** ** The dictionary service interface

    [DictionaryService] is an interface whose implementation calls remote
    services; the engine holds it in its [dict] field and never replaces
    it.  An operation of the engine takes the behaviour of the service at
    the time of the call, so that the answers may differ from call to
    call.  A Go result [(v, err)] is the pair [(v, option error)]; a
    [*Word] that may be nil is an [option Word]. *)
Record DictionaryService := {
  GetWordInfo : string -> option Word * option error;
  GenerateAudio : string -> list Z * option error;
  dict_GetHint : Word -> HintType -> string * option error;
}.

(** [dictionaryService.GetHint], the implementation of the repository:
    a field of the word, by the kind of hint. *)
Definition dictionaryService_GetHint (word : Word) (hintType : HintType)
  : string * option error :=
  if String.eqb hintType HintTypeDefinition then (word_Definition word, None)
  else if String.eqb hintType HintTypeSentence then (word_ExampleSentence word, None)
  else if String.eqb hintType HintTypeEtymology then (word_Etymology word, None)
  else if String.eqb hintType HintTypePartOfSpeech then (word_PartOfSpeech word, None)
  else if String.eqb hintType HintTypePronunciation then (word_Pronunciation word, None)
  else (EmptyString, Some (ErrNew ("invalid hint type: " ++ hintType))).

(** The dictionary service of the repository over a given lookup of
    words (the lookup itself is a remote call). *)
Definition dictionaryService (lookup : string -> option Word * option error)
  : DictionaryService :=
  {| GetWordInfo := lookup;
     GenerateAudio := fun _ => ([], None);
     dict_GetHint := dictionaryService_GetHint |}.

(** ** The game engine *)

Definition MaxHints : Z := 3.
Definition TurnTimeout : Duration := 10 * Second.

Record GameEngine := mkEngine {
  ID : string;
  CurrentWord : option Word;
  WordMasked : bool;
  HintsUsed : Z;
  TurnStartedAt : option Time;
}.

Definition NewGameEngine (id : string) : GameEngine :=
  {| ID := id; CurrentWord := None; WordMasked := false; HintsUsed := 0;
     TurnStartedAt := None |}.

Section Engine.
Context (dict : DictionaryService).

Definition StartNewTurn (now : Time) (g : GameEngine)
  : GameEngine * option error :=
  match GetWordInfo dict EmptyString with
  | (_, Some err) => (g, Some (ErrWrap "failed to get word" err))
  | (word, None) =>
      ({| ID := ID g; CurrentWord := word; WordMasked := true;
          HintsUsed := 0; TurnStartedAt := Some now |}, None)
  end.

Definition StartTurn (now : Time) (word : string) (g : GameEngine)
  : GameEngine * option error :=
  match GetWordInfo dict word with
  | (_, Some err) => (g, Some (ErrWrap "failed to get word info" err))
  | (wordInfo, None) =>
      ({| ID := ID g; CurrentWord := wordInfo; WordMasked := true;
          HintsUsed := 0; TurnStartedAt := Some now |}, None)
  end.

Definition GetHint (hintType : HintType) (g : GameEngine)
  : GameEngine * (string * option error) :=
  match CurrentWord g with
  | None => (g, (EmptyString, Some ErrNoWordSet))
  | Some w =>
      if MaxHints <=? HintsUsed g then (g, (EmptyString, Some ErrMaxHintsUsed))
      else
        match dict_GetHint dict w hintType with
        | (_, Some err) =>
            (g, (EmptyString, Some (ErrWrap "failed to get hint" err)))
        | (hint, None) =>
            ({| ID := ID g; CurrentWord := CurrentWord g;
                WordMasked := WordMasked g;
                HintsUsed := int_wrap (HintsUsed g + 1);
                TurnStartedAt := TurnStartedAt g |}, (hint, None))
        end
  end.

Definition GenerateWordAudio (g : GameEngine) : list Z * option error :=
  match CurrentWord g with
  | None => ([], Some ErrNoWordSet)
  | Some w => GenerateAudio dict (word_Word w)
  end.
End Engine.

Definition ValidateAttempt (now : Time) (attempt : string) (g : GameEngine)
  : bool * option error :=
  match CurrentWord g with
  | None => (false, Some ErrNoWordSet)
  | Some w =>
      match TurnStartedAt g with
      | None => (false, Some ErrTurnNotActive)
      | Some t =>
          if TurnTimeout <? Since now t then (false, Some ErrTurnTimedOut)
          else (EqualFold attempt (word_Word w), None)
      end
  end.

Definition CheckTimeLimit (now : Time) (g : GameEngine) : bool :=
  match TurnStartedAt g with
  | None => false
  | Some t => Since now t <=? TurnTimeout
  end.

Definition RevealWord (g : GameEngine) : GameEngine * option error :=
  match CurrentWord g with
  | None => (g, Some ErrNoWordSet)
  | Some _ =>
      ({| ID := ID g; CurrentWord := CurrentWord g; WordMasked := false;
          HintsUsed := HintsUsed g; TurnStartedAt := TurnStartedAt g |}, None)
  end.

Record Hint := mkHint { hint_Type : HintType; hint_Content : string }.

(** [RequestHint] answers with fixed samples and counts nothing. *)
Definition RequestHint (hintType : HintType) (g : GameEngine)
  : option Hint * option error :=
  match CurrentWord g with
  | None => (None, Some (ErrNew "no word is currently active"))
  | Some _ =>
      if String.eqb hintType HintTypeDefinition then
        (Some {| hint_Type := HintTypeDefinition;
                 hint_Content := "Sample definition hint" |}, None)
      else if String.eqb hintType HintTypePhonetic then
        (Some {| hint_Type := HintTypePhonetic;
                 hint_Content := "Sample phonetic hint" |}, None)
      else if String.eqb hintType HintTypeSynonym then
        (Some {| hint_Type := HintTypeSynonym;
                 hint_Content := "Sample synonym hint" |}, None)
      else (None, Some (ErrNew ("unsupported hint type: " ++ hintType)))
  end.

Definition UnmaskWord (g : GameEngine) : GameEngine * string :=
  match CurrentWord g with
  | None => (g, EmptyString)
  | Some w =>
      ({| ID := ID g; CurrentWord := CurrentWord g; WordMasked := false;
          HintsUsed := HintsUsed g; TurnStartedAt := TurnStartedAt g |},
       word_Word w)
  end.

(** ** The word service *)

Definition ValidateSpelling (word attempt : string) : bool :=
  EqualFold (TrimSpace word) (TrimSpace attempt).

(** ** Package game: sessions, players, events *)

Definition GameType := string.
Definition GameTypeSolo : GameType := "solo".
Definition GameTypeMulti : GameType := "multi".
Definition GameTypePractice : GameType := "practice".

Definition GameStatus := string.
Definition GameStatusCreated : GameStatus := "created".
Definition GameStatusInitializing : GameStatus := "initializing".
Definition GameStatusWaiting : GameStatus := "waiting".
Definition GameStatusPlaying : GameStatus := "playing".
Definition GameStatusActive : GameStatus := "active".
Definition GameStatusFinished : GameStatus := "finished".
Definition GameStatusCancelled : GameStatus := "cancelled".

Definition EventType := string.
Definition EventTypeGameCreated : EventType := "game_created".
Definition EventTypeGameStarted : EventType := "game_started".
Definition EventTypeAttemptSucceeded : EventType := "attempt_succeeded".
Definition EventTypeAttemptFailed : EventType := "attempt_failed".
Definition EventTypePlayerJoined : EventType := "player_joined".
Definition EventTypeHintRequested : EventType := "hint_requested".

Record GameSettings := mkSettings {
  MinPlayers : Z;
  MaxPlayers : Z;
  TimeLimit : Duration;
  Category : option string;
  IsRanked : bool;
  Elimination : bool;
  WordLevel : Z;
  HintsAllowed : Z;
  SpellStartTimeout : Duration;
}.

Record Player := mkPlayer {
  player_ID : string;
  player_GameID : string;
  player_UserID : string;
  player_Score : Z;
  player_Status : string;
  player_JoinedAt : Time;
}.

Record Game := mkGame {
  game_ID : string;
  game_Type : GameType;
  game_Status : GameStatus;
  game_Settings : GameSettings;
  game_CurrentWord : option Word;
  game_CurrentTurn : option string;
  game_Round : Z;
  game_CreatedAt : Time;
  game_UpdatedAt : Time;
  game_TurnStartedAt : option Time;
  game_WordMasked : bool;
  game_HostID : string;
  game_CurrentPlayer : string;
  game_Players : list Player;
}.

Definition AttemptType := string.
Definition AttemptTypeText : AttemptType := "text".
Definition AttemptTypeVoice : AttemptType := "voice".

Record SpellingAttempt := mkAttempt {
  attempt_Type : AttemptType;
  attempt_VoiceData : list Z;
  attempt_Text : string;
}.

(** The payload of an event, a [map[string]any] in the source, by the keys
    each emitter fills. *)
Inductive Payload :=
  | PayGame (game : Game)
  | PayGameWord (game : Game) (word : Word)
  | PayPlayer (player : Player)
  | PayAttempt (attempt : SpellingAttempt) (correct : bool)
  | PayHint (hint : Hint).

Record GameEvent := mkEvent {
  event_Type : EventType;
  event_GameID : string;
  event_PlayerID : option string;
  event_Timestamp : Time;
  event_Payload : Payload;
}.

(** ** The database

    The service reaches PostgreSQL through sqlx and database/sql (driver
    lib/pq).  Two tables matter: [games], keyed by id, and [players]
    (migration 002_game_schema.sql).  The model keeps what the tables
    hold and gives each statement of the service the answer database/sql
    gives it for the Go values the service passes and the Go variables
    it scans into. *)

(** A row of [games], by the columns the statements of the service name;
    the JSONB document of [settings] by the settings it encodes. *)
Record GameRow := mkRow {
  row_id : string;
  row_type : GameType;
  row_status : GameStatus;
  row_settings : GameSettings;
  row_current_word_id : option string;
  row_current_turn : option string;
  row_round : Z;
  row_created_at : Time;
  row_updated_at : Time;
  row_turn_started_at : option Time;
  row_word_masked : bool;
}.

Record DB := mkDB {
  games : gmap string GameRow;
  players : list Player;
}.

Definition playersOf (d : DB) (gameID : string) : list Player :=
  filter (fun p => player_GameID p = gameID) (players d).

(** database/sql converts every argument of a statement before it sends
    the statement.  A [GameSettings] is a struct; its method [Value]
    returns [(interface{}, error)], not [(driver.Value, error)], so that
    it is no [driver.Valuer], and the default converter refuses a
    struct. *)
Definition errConvertSettings : error :=
  ErrNew "sql: converting argument $5 type: unsupported type game.GameSettings, a struct".

(** [rows.Scan] stores a column into the field sqlx pairs it with.  The
    column [settings], fourth of [games] and never null, is paired with
    the field [Settings], a [GameSettings]: a struct that is no
    [sql.Scanner], which [Scan] refuses.  (Further on, [players] is
    paired with a [[]*Player], which it refuses as well, and so it does
    a [current_word_id] that is not null, paired with a [*Word].) *)
Definition errScanSettings : error :=
  ErrNew "sql: Scan error on column index 3, name settings: unsupported Scan, storing driver.Value type []uint8 into type *game.GameSettings".

(** [INSERT INTO games (id, host_id, type, status, settings, created_at,
    updated_at) VALUES ($1, ..., $7) RETURNING id], run with
    [game.Settings] as its fifth argument: the argument is refused and
    nothing is sent.  (The statement also names [host_id], which is no
    column of [games] in any migration.) *)
Definition insertGame (game : Game) (d : DB) : DB * option error :=
  (d, Some errConvertSettings).

(** [SELECT g.*, array_agg of the players FROM games g LEFT JOIN players p
    ON p.game_id = g.id WHERE g.id = $1 GROUP BY g.id]: the row of the
    game with its players, when there is one. *)
Definition selectGame (gameID : string) (d : DB)
  : option (GameRow * list Player) :=
  match games d !! gameID with
  | None => None
  | Some row => Some (row, playersOf d gameID)
  end.

(** Scanning a row of [games] into a [Game]: the scan stops at the
    column [settings], for every row. *)
Definition scanGame (row : GameRow) : Game + error := inr errScanSettings.

(** [SELECT COUNT( * ) FROM players WHERE game_id = $1], scanned into an
    [int]. *)
Definition countPlayers (gameID : string) (d : DB) : Z :=
  Z.of_nat (length (playersOf d gameID)).

(** [INSERT INTO players (id, game_id, user_id, status, joined_at) ...]:
    the table has the column [player_id] and no column [user_id]; the
    database rejects the statement. *)
Definition insertPlayer (p : Player) (d : DB) : DB * option error :=
  (d, Some (ErrNew "pq: column user_id of relation players does not exist")).

(** [UPDATE games SET status = $1, current_word_id = $2, updated_at = $3,
    turn_started_at = $4, word_masked = $5 WHERE id = $6 RETURNING *]:
    the row as updated, when there is one. *)
Definition updateStarted (status : GameStatus) (wordID : string)
    (updated : Time) (started : Time) (masked : bool) (gameID : string)
    (d : DB) : DB * option GameRow :=
  match games d !! gameID with
  | None => (d, None)
  | Some row =>
      let row' :=
        {| row_id := row_id row; row_type := row_type row;
           row_status := status; row_settings := row_settings row;
           row_current_word_id := Some wordID;
           row_current_turn := row_current_turn row;
           row_round := row_round row;
           row_created_at := row_created_at row;
           row_updated_at := updated;
           row_turn_started_at := Some started;
           row_word_masked := masked |} in
      ({| games := <[gameID := row']> (games d); players := players d |},
       Some row')
  end.

(** [UPDATE games SET updated_at = $1 WHERE id = $2 RETURNING *] *)
Definition updateTouched (updated : Time) (gameID : string) (d : DB)
  : DB * option GameRow :=
  match games d !! gameID with
  | None => (d, None)
  | Some row =>
      let row' :=
        {| row_id := row_id row; row_type := row_type row;
           row_status := row_status row; row_settings := row_settings row;
           row_current_word_id := row_current_word_id row;
           row_current_turn := row_current_turn row;
           row_round := row_round row;
           row_created_at := row_created_at row;
           row_updated_at := updated;
           row_turn_started_at := row_turn_started_at row;
           row_word_masked := row_word_masked row |} in
      ({| games := <[gameID := row']> (games d); players := players d |},
       Some row')
  end.

(** The statement of the correct-attempt branch of [MakeAttempt] names the
    placeholders [$1], [$2] and [$4] and is run with three arguments
    [now, playerID, gameID]: the database rejects it, whatever the
    tables hold.  (It also names [scores], which is no column of
    [games].) *)
Definition updateScored (updated : Time) (playerID gameID : string) (d : DB)
  : DB * (Game + error) :=
  (d, inr (ErrNew "bind message supplies 3 parameters, statement requires 4")).

(** ** The game service *)

(** [WordService.GetRandomWord]: a word, or an error.  (A nil word with a
    nil error would make [StartGame] dereference nil; the interface is
    taken to return a word whenever it returns no error.) *)
Record WordService := {
  GetRandomWord : Z -> option string -> Word + error;
}.

Record gameService := mkService {
  db : DB;
  activeGames : gmap string GameEngine;
  eventChan : list GameEvent;
}.

Definition eventChanCap : nat := 100.

Definition NewGameService (d : DB) : gameService :=
  {| db := d; activeGames := ∅; eventChan := [] |}.

(** What a call of the service comes to: it returns, or it waits on the
    event channel, or it panics. *)
Inductive outcome (A : Type) :=
  | Returns (a : A)
  | Waits
  | Panics.
Arguments Returns {A} a.
Arguments Waits {A}.
Arguments Panics {A}.

(** [s.eventChan <- event]: the channel buffers 100 events; a send on a
    full channel does not return until a subscriber receives.  The
    subscribers run on their own and are not part of the model: a send on
    a full channel is [Waits]. *)
Definition emitEvent {A : Type} (eventType : EventType) (gameID : string)
    (playerID : option string) (now : Time) (payload : Payload)
    (s : gameService) (k : gameService -> outcome A) : outcome A :=
  if decide (length (eventChan s) < eventChanCap)%nat then
    k {| db := db s; activeGames := activeGames s;
         eventChan := eventChan s ++
           [ {| event_Type := eventType; event_GameID := gameID;
                event_PlayerID := playerID; event_Timestamp := now;
                event_Payload := payload |} ] |}
  else Waits.

Definition GetGame (gameID : string) (s : gameService) : option Game * option error :=
  match selectGame gameID (db s) with
  | None => (None, Some ErrGameNotFound)
  | Some (row, _) =>
      match scanGame row with
      | inr err => (None, Some (ErrWrap "failed to get game" err))
      | inl game =>
          match activeGames s !! gameID with
          | Some engine =>
              (Some {| game_ID := game_ID game; game_Type := game_Type game;
                       game_Status := game_Status game;
                       game_Settings := game_Settings game;
                       game_CurrentWord := CurrentWord engine;
                       game_CurrentTurn := game_CurrentTurn game;
                       game_Round := game_Round game;
                       game_CreatedAt := game_CreatedAt game;
                       game_UpdatedAt := game_UpdatedAt game;
                       game_TurnStartedAt := TurnStartedAt engine;
                       game_WordMasked := WordMasked engine;
                       game_HostID := game_HostID game;
                       game_CurrentPlayer := game_CurrentPlayer game;
                       game_Players := game_Players game |}, None)
          | None => (Some game, None)
          end
      end
  end.

(** The calls below take the readings of their environment as arguments:
    [now] for [time.Now()] (one reading for the whole call), [id] for
    [uuid.New().String()], and the behaviour of the word and dictionary
    services at the time of the call. *)

Definition CreateGame (id : string) (now : Time) (hostID : string)
    (gameType : GameType) (settings : GameSettings) (s : gameService)
  : outcome (gameService * (option Game * option error)) :=
  let game :=
    {| game_ID := id; game_Type := gameType;
       game_Status := GameStatusInitializing; game_Settings := settings;
       game_CurrentWord := None; game_CurrentTurn := None; game_Round := 0;
       game_CreatedAt := now; game_UpdatedAt := now;
       game_TurnStartedAt := None; game_WordMasked := false;
       game_HostID := hostID; game_CurrentPlayer := EmptyString;
       game_Players := [] |} in
  match insertGame game (db s) with
  | (_, Some err) =>
      Returns (s, (None, Some (ErrWrap "failed to create game" err)))
  | (d', None) =>
      let s1 :=
        {| db := d';
           activeGames := <[id := NewGameEngine id]> (activeGames s);
           eventChan := eventChan s |} in
      emitEvent EventTypeGameCreated id None now (PayGame game) s1
        (fun s2 => Returns (s2, (Some game, None)))
  end.

Definition JoinGame (id : string) (now : Time) (gameID playerID : string)
    (s : gameService)
  : outcome (gameService * (option Game * option error)) :=
  match GetGame gameID s with
  | (_, Some err) => Returns (s, (None, Some err))
  | (None, None) => Panics
  | (Some game, None) =>
      if negb (String.eqb (game_Status game) GameStatusWaiting)
      then Returns (s, (None, Some ErrInvalidGameState))
      else
        let playerCount := countPlayers gameID (db s) in
        if MaxPlayers (game_Settings game) <=? playerCount
        then Returns (s, (None, Some ErrGameFull))
        else
          let player :=
            {| player_ID := id; player_GameID := gameID;
               player_UserID := playerID; player_Score := 0;
               player_Status := "active"; player_JoinedAt := now |} in
          match insertPlayer player (db s) with
          | (_, Some err) =>
              Returns (s, (None, Some (ErrWrap "failed to add player" err)))
          | (d', None) =>
              let s1 := {| db := d'; activeGames := activeGames s;
                           eventChan := eventChan s |} in
              emitEvent EventTypePlayerJoined gameID (Some playerID) now
                (PayPlayer player) s1
                (fun s2 => Returns (s2, (Some game, None)))
          end
  end.

Definition StartGame (wordService : WordService) (dict : DictionaryService)
    (now : Time) (gameID userID : string) (s : gameService)
  : outcome (gameService * (option Game * option error)) :=
  match GetGame gameID s with
  | (_, Some err) => Returns (s, (None, Some err))
  | (None, None) => Panics
  | (Some game, None) =>
      if negb (String.eqb (game_Status game) GameStatusWaiting)
      then Returns (s, (None, Some ErrInvalidGameState))
      else
        match GetRandomWord wordService (WordLevel (game_Settings game))
                (Category (game_Settings game)) with
        | inr err => Returns (s, (None, Some (ErrWrap "failed to get word" err)))
        | inl word =>
            let engine :=
              match activeGames s !! gameID with
              | Some e => e
              | None => NewGameEngine gameID
              end in
            match StartTurn dict now (word_Word word) engine with
            | (engine', Some err) =>
                Returns ({| db := db s;
                            activeGames := <[gameID := engine']> (activeGames s);
                            eventChan := eventChan s |},
                         (None, Some (ErrWrap "failed to start turn" err)))
            | (engine', None) =>
                let acts := <[gameID := engine']> (activeGames s) in
                match updateStarted GameStatusActive (word_ID word) now now
                        true gameID (db s) with
                | (d', None) =>
                    Returns ({| db := d'; activeGames := acts;
                                eventChan := eventChan s |},
                             (None,
                              Some (ErrWrap "failed to update game" ErrNoRows)))
                | (d', Some row) =>
                    match scanGame row with
                    | inr err =>
                        Returns ({| db := d'; activeGames := acts;
                                    eventChan := eventChan s |},
                                 (None,
                                  Some (ErrWrap "failed to update game" err)))
                    | inl game' =>
                        emitEvent EventTypeGameStarted gameID None now
                          (PayGameWord game' word)
                          {| db := d'; activeGames := acts;
                             eventChan := eventChan s |}
                          (fun s2 => Returns (s2, (Some game', None)))
                    end
                end
            end
        end
  end.

Definition MakeAttempt (now : Time) (gameID playerID : string)
    (attempt : SpellingAttempt) (s : gameService)
  : outcome (gameService * option error) :=
  match GetGame gameID s with
  | (_, Some err) => Returns (s, Some (ErrWrap "failed to get game" err))
  | (None, None) => Panics
  | (Some game, None) =>
      if negb (String.eqb (game_Status game) GameStatusActive)
      then Returns (s, Some ErrInvalidGameState)
      else
        match activeGames s !! gameID with
        | None => Returns (s, Some ErrGameNotFound)
        | Some engine =>
            match ValidateAttempt now (attempt_Text attempt) engine with
            | (_, Some err) =>
                Returns (s, Some (ErrWrap "failed to validate attempt" err))
            | (isCorrect, None) =>
                let updated :=
                  if isCorrect then updateScored now playerID gameID (db s)
                  else
                    match updateTouched now gameID (db s) with
                    | (d', Some row) => (d', scanGame row)
                    | (d', None) => (d', inr ErrNoRows)
                    end in
                match updated with
                | (d', inr err) =>
                    Returns ({| db := d'; activeGames := activeGames s;
                                eventChan := eventChan s |},
                             Some (ErrWrap "failed to update game" err))
                | (d', inl _) =>
                    let eventType :=
                      if isCorrect then EventTypeAttemptSucceeded
                      else EventTypeAttemptFailed in
                    emitEvent eventType gameID (Some playerID) now
                      (PayAttempt attempt isCorrect)
                      {| db := d'; activeGames := activeGames s;
                         eventChan := eventChan s |}
                      (fun s2 => Returns (s2, None))
                end
            end
        end
  end.

Definition hintTypes : list HintType :=
  [ HintTypeDefinition; HintTypeExampleSentence; HintTypeEtymology;
    HintTypePartOfSpeech; HintTypePronunciation ].

(** [service_GetHint] is [gameService.GetHint]; [unixNano] is the reading
    [time.Now().UnixNano()] that picks the kind of hint.  Go's [%]
    truncates: a negative reading indexes out of range. *)
Definition service_GetHint (dict : DictionaryService) (now : Time)
    (unixNano : Z) (gameID playerID : string) (s : gameService)
  : outcome (gameService * (option Hint * option error)) :=
  match GetGame gameID s with
  | (_, Some err) => Returns (s, (None, Some (ErrWrap "failed to get game" err)))
  | (None, None) => Panics
  | (Some game, None) =>
      if negb (String.eqb (game_Status game) GameStatusActive)
      then Returns (s, (None, Some ErrInvalidGameState))
      else
        match activeGames s !! gameID with
        | None => Returns (s, (None, Some ErrGameNotFound))
        | Some engine =>
            let i := Z.rem unixNano (Z.of_nat (length hintTypes)) in
            if i <? 0 then Panics
            else
              match hintTypes !! Z.to_nat i with
              | None => Panics
              | Some hintType =>
                  match GetHint dict hintType engine with
                  | (engine', (_, Some err)) =>
                      Returns ({| db := db s;
                                  activeGames :=
                                    <[gameID := engine']> (activeGames s);
                                  eventChan := eventChan s |},
                               (None, Some (ErrWrap "failed to get hint" err)))
                  | (engine', (hint, None)) =>
                      let h := {| hint_Type := hintType;
                                  hint_Content := hint |} in
                      emitEvent EventTypeHintRequested gameID (Some playerID)
                        now (PayHint h)
                        {| db := db s;
                           activeGames := <[gameID := engine']> (activeGames s);
                           eventChan := eventChan s |}
                        (fun s2 => Returns (s2, (Some h, None)))
                  end
              end
        end
  end.

(** ** float64

    IEEE 754 binary64 as the standard library specifies it ([SpecFloat],
    precision 53, infinities at exponent 1024), every operation rounded to
    nearest, ties to even, one operation at a time (no fused
    multiply-add, as on amd64). *)
Definition float64 := spec_float.
Definition prec : Z := 53.
Definition emax : Z := 1024.

Definition fmul : float64 -> float64 -> float64 := SFmul prec emax.
Definition fdiv : float64 -> float64 -> float64 := SFdiv prec emax.
Definition fadd : float64 -> float64 -> float64 := SFadd prec emax.
(** [x < y] and [x >= y] on floats; both are false on a NaN. *)
Definition flt : float64 -> float64 -> bool := SFltb.
Definition fge (x y : float64) : bool := SFleb y x.

(** The conversion [float64(n)] of an integer. *)
Definition float_of_int (n : Z) : float64 := binary_normalize prec emax n 0 false.

(** A decimal constant [n/d] of the source is the double nearest to it. *)
Definition float_lit (n d : Z) : float64 := fdiv (float_of_int n) (float_of_int d).

(** The integer part of a finite float, towards zero. *)
Definition ftrunc (x : float64) : option Z :=
  match x with
  | S754_zero _ => Some 0
  | S754_finite s m e =>
      let a := if 0 <=? e then Z.pos m * 2 ^ e else Z.pos m / 2 ^ (- e) in
      Some (if s then - a else a)
  | _ => None
  end.

(** The conversion [int(x)]: the fraction is discarded; when the value
    does not fit (or is a NaN) the result depends on the platform, amd64
    gives the least integer. *)
Definition int_of_float (x : float64) : Z :=
  match ftrunc x with
  | Some z => if (int_min <=? z) && (z <=? int_max) then z else int_min
  | None => int_min
  end.

(** [math.Round]: the nearest integer, halves away from zero; zeros,
    infinities and NaN are returned as they are. *)
Definition Round (x : float64) : float64 :=
  match x with
  | S754_finite s m e =>
      if 0 <=? e then x
      else
        let n := (2 * Z.pos m + 2 ^ (- e)) / 2 ^ (- e + 1) in
        binary_normalize prec emax (if s then - n else n) 0 s
  | _ => x
  end.

(** ** Package modes *)
Module modes.

Definition GameMode := string.
Definition ModeRoundRobin : GameMode := "round_robin".
Definition ModeRapidFire : GameMode := "rapid_fire".
Definition ModeTotalGame : GameMode := "total_game".

Record GameSettings := mkSettings {
  Mode : GameMode;
  MaxPlayers : Z;
  MaxRounds : Z;
  TimeLimit : Duration;
  WordLevel : Z;
  Category : string;
  IsTournament : bool;
  IsPrivate : bool;
  EnableVideo : bool;
  EnableVoice : bool;
  RecordGame : bool;
}.

Definition DefaultSettings (mode : GameMode) : GameSettings :=
  let base players rounds limit :=
    {| Mode := mode; MaxPlayers := players; MaxRounds := rounds;
       TimeLimit := limit; WordLevel := 1; Category := EmptyString;
       IsTournament := false; IsPrivate := false; EnableVideo := true;
       EnableVoice := true; RecordGame := false |} in
  if String.eqb mode ModeRoundRobin then base 32 10 0
  else if String.eqb mode ModeRapidFire then base 2 0 (10 * Minute)
  else if String.eqb mode ModeTotalGame then base 8 20 (30 * Minute)
  else {| Mode := mode; MaxPlayers := 0; MaxRounds := 0; TimeLimit := 0;
          WordLevel := 1; Category := EmptyString; IsTournament := false;
          IsPrivate := false; EnableVideo := false; EnableVoice := true;
          RecordGame := false |}.

(** The check on the word level that follows the [switch]. *)
Definition checkWordLevel (settings : GameSettings) : option error :=
  if (WordLevel settings <? 1) || (10 <? WordLevel settings)
  then Some (ErrNew "word level must be between 1-10")
  else None.

Definition ValidateSettings (settings : GameSettings) : option error :=
  if String.eqb (Mode settings) ModeRoundRobin then
    if (MaxPlayers settings <? 2) || (32 <? MaxPlayers settings)
    then Some (ErrNew "round robin requires 2-32 players")
    else if MaxRounds settings <? 1
    then Some (ErrNew "round robin requires at least 1 round")
    else checkWordLevel settings
  else if String.eqb (Mode settings) ModeRapidFire then
    if negb (MaxPlayers settings =? 2)
    then Some (ErrNew "rapid fire is strictly 1v1")
    else if (TimeLimit settings <? Minute) || (30 * Minute <? TimeLimit settings)
    then Some (ErrNew "rapid fire time limit must be between 1-30 minutes")
    else checkWordLevel settings
  else if String.eqb (Mode settings) ModeTotalGame then
    if (MaxPlayers settings <? 2) || (8 <? MaxPlayers settings)
    then Some (ErrNew "total game requires 2-8 players")
    else if (TimeLimit settings <? 5 * Minute) || (Hour <? TimeLimit settings)
    then Some (ErrNew "total game time limit must be between 5-60 minutes")
    else checkWordLevel settings
  else checkWordLevel settings.

Definition CalculateScore (mode : GameMode) (correctAttempts totalAttempts : Z)
    (averageTime : float64) : Z :=
  let baseScore := int_wrap (correctAttempts * 100) in
  if String.eqb mode ModeRapidFire then
    if flt averageTime (float_lit 5 1)
    then int_of_float (fmul (float_of_int baseScore) (float_lit 15 10))
    else baseScore
  else if String.eqb mode ModeTotalGame then
    let accuracy :=
      fdiv (float_of_int correctAttempts) (float_of_int totalAttempts) in
    if fge accuracy (float_lit 9 10)
    then int_of_float (fmul (float_of_int baseScore) (float_lit 13 10))
    else baseScore
  else baseScore.

Definition IsCompetitive (settings : GameSettings) : bool :=
  negb (IsPrivate settings)
  && (IsTournament settings || negb (String.eqb (Mode settings) ModeRapidFire)).

Definition RequiresRecording (settings : GameSettings) : bool :=
  RecordGame settings && negb (IsPrivate settings) && IsTournament settings.

End modes.

(** ** Package ranking *)
Module ranking.

Record Rank := mkRank { Color : string; MinPoints : Z; MaxPoints : Z }.

Definition Ranks : list Rank :=
  [ mkRank "Gray" 0 299; mkRank "Violet" 300 449; mkRank "Indigo" 450 599;
    mkRank "Blue" 600 749; mkRank "Green" 750 899; mkRank "Yellow" 900 1049;
    mkRank "Orange" 1050 1149; mkRank "Red" 1150 1200 ].

Definition GoldPoints : Z := 30.
Definition SilverPoints : Z := 15.
Definition BronzePoints : Z := 5.

Definition basePointsOf (placement : Z) : option Z :=
  if placement =? 1 then Some GoldPoints
  else if placement =? 2 then Some SilverPoints
  else if placement =? 3 then Some BronzePoints
  else None.

Definition playerMultiplierOf (playerCount : Z) : float64 :=
  if 2 <? playerCount
  then fadd (float_lit 1 1)
            (fmul (float_of_int (int_wrap (playerCount - 2))) (float_lit 1 10))
  else float_lit 1 1.

Definition tournamentMultiplierOf (isTournament : bool) : float64 :=
  if isTournament then float_lit 15 10 else float_lit 1 1.

Definition CalculatePoints (placement playerCount : Z) (isTournament : bool) : Z :=
  match basePointsOf placement with
  | None => 0
  | Some basePoints =>
      int_of_float
        (Round (fmul (fmul (float_of_int basePoints)
                           (playerMultiplierOf playerCount))
                     (tournamentMultiplierOf isTournament)))
  end.

Definition GetRankByPoints (points : Z) : Rank :=
  match List.find (fun rank => (MinPoints rank <=? points)
                               && (points <=? MaxPoints rank)) Ranks with
  | Some rank => rank
  | None => mkRank "Gray" 0 299
  end.

Definition CalculateNewRating (currentRating pointsEarned : Z) : Z :=
  let newRating := int_wrap (currentRating + pointsEarned) in
  if 1200 <? newRating then 1200
  else if newRating <? 0 then 0
  else newRating.

End ranking.

(** ** Sequences of engine operations

    Every method of [GameEngine], with the dictionary service and the
    clock reading it meets at that call. *)
Inductive Op :=
  | OpStartNewTurn (dict : DictionaryService) (now : Time)
  | OpStartTurn (dict : DictionaryService) (now : Time) (word : string)
  | OpValidateAttempt (now : Time) (attempt : string)
  | OpGetHint (dict : DictionaryService) (hintType : HintType)
  | OpCheckTimeLimit (now : Time)
  | OpRevealWord
  | OpGenerateWordAudio (dict : DictionaryService)
  | OpRequestHint (hintType : HintType)
  | OpUnmaskWord.

Definition step (g : GameEngine) (op : Op) : GameEngine :=
  match op with
  | OpStartNewTurn dict now => fst (StartNewTurn dict now g)
  | OpStartTurn dict now word => fst (StartTurn dict now word g)
  | OpValidateAttempt _ _ => g
  | OpGetHint dict hintType => fst (GetHint dict hintType g)
  | OpCheckTimeLimit _ => g
  | OpRevealWord => fst (RevealWord g)
  | OpGenerateWordAudio _ => g
  | OpRequestHint _ => g
  | OpUnmaskWord => fst (UnmaskWord g)
  end.

(** The states an engine goes through: the first one and the one after
    each operation. *)
Fixpoint states (g : GameEngine) (ops : list Op) : list GameEngine :=
  match ops with
  | [] => [g]
  | op :: ops' => g :: states (step g op) ops'
  end.

Definition hints_in_budget (g : GameEngine) : Prop := 0 <= HintsUsed g <= MaxHints.

(** A dictionary service with fixed answers, as the mock of the tests. *)
Definition constDict (info : option Word * option error)
    (hint : string * option error) : DictionaryService :=
  {| GetWordInfo := fun _ => info;
     GenerateAudio := fun _ => ([], None);
     dict_GetHint := fun _ _ => hint |}.

Definition testWord : Word :=
  {| word_ID := "w1"; word_Word := "TESTING"; word_Definition := "A test word";
     word_ExampleSentence := EmptyString; word_Etymology := EmptyString; word_PartOfSpeech := EmptyString;
     word_Pronunciation := EmptyString; word_AudioURL := EmptyString |}.

Definition okDict : DictionaryService :=
  constDict (Some testWord, None) ("A test word"%string, None).

Definition failingDict : DictionaryService :=
  constDict (None, Some (ErrNew "word not found"))
            (EmptyString, Some (ErrNew "invalid hint type")).

(** An engine in the middle of a turn on the word TESTING, started at
    instant 0. *)
Definition testEngine : GameEngine :=
  {| ID := "test-game"; CurrentWord := Some testWord; WordMasked := true;
     HintsUsed := 0; TurnStartedAt := Some 0 |}.

(** ** Fixtures and the notions the statements use *)

(** A byte with the letters A-Z lowered. *)
Definition lowerByte (b : Z) : Z := if (65 <=? b) && (b <=? 90) then b + 32 else b.

Fixpoint lowerBytes (s : string) : list Z :=
  match s with
  | EmptyString => []
  | String c s' => lowerByte (byte_of c) :: lowerBytes s'
  end.

Definition testSettings : GameSettings :=
  {| MinPlayers := 2; MaxPlayers := 4; TimeLimit := 300; Category := None;
     IsRanked := false; Elimination := false; WordLevel := 1;
     HintsAllowed := 3; SpellStartTimeout := 10 * Second |}.

Definition testRow (status : GameStatus) (turn : option string) : GameRow :=
  {| row_id := "g1"; row_type := GameTypeMulti; row_status := status;
     row_settings := testSettings; row_current_word_id := None;
     row_current_turn := turn; row_round := 0; row_created_at := 0;
     row_updated_at := 0; row_turn_started_at := None;
     row_word_masked := true |}.

Definition testPlayer (id : string) : Player :=
  {| player_ID := id; player_GameID := "g1"; player_UserID := id;
     player_Score := 0; player_Status := "active"; player_JoinedAt := 0 |}.




(** A service over a database that holds an active game of two players
    whose turn is p1's. *)
Definition activeService : gameService :=
  NewGameService
    {| games := {[ "g1"%string := testRow GameStatusActive (Some "p1"%string) ]};
       players := [testPlayer "p1"; testPlayer "p2"] |}.



Definition engineOf (gameID : string) (s : gameService) : option GameEngine :=
  activeGames s !! gameID.



(** The error of [GetGame]: the game is not in the table, or its row
    cannot be scanned. *)
Definition getGameError (gameID : string) (s : gameService) : error :=
  match games (db s) !! gameID with
  | None => ErrGameNotFound
  | Some _ => ErrWrap "failed to get game" errScanSettings
  end.

(** The settings of package [modes] that [ValidateSettings] refuses. *)
Definition out_of_bounds (st : modes.GameSettings) : Prop :=
  modes.WordLevel st < 1 \/ 10 < modes.WordLevel st
  \/ (modes.Mode st = modes.ModeRoundRobin
      /\ (modes.MaxPlayers st < 2 \/ 32 < modes.MaxPlayers st))
  \/ (modes.Mode st = modes.ModeRapidFire
      /\ (modes.MaxPlayers st <> 2
          \/ modes.TimeLimit st < Minute \/ 30 * Minute < modes.TimeLimit st))
  \/ (modes.Mode st = modes.ModeTotalGame
      /\ (modes.MaxPlayers st < 2 \/ 8 < modes.MaxPlayers st
          \/ modes.TimeLimit st < 5 * Minute \/ Hour < modes.TimeLimit st)).


(** ** The value of a float and the rounding of an operation *)

(** The exact value of an operation is a fraction [X / D] in units of
    the last place; [loc_ok l m X D] says that it lies in [[m, m + 1)] at
    the place the location [l] tells: on [m], below, at or above the
    middle. *)
Definition loc_ok (l : location) (m X D : Z) : Prop :=
  match l with
  | loc_Exact => X = m * D
  | loc_Inexact Lt => m * D < X /\ 2 * X < (2 * m + 1) * D
  | loc_Inexact Eq => 2 * X = (2 * m + 1) * D
  | loc_Inexact Gt => (2 * m + 1) * D < 2 * X /\ X < (m + 1) * D
  end.

(** The same for the record of a shift: mantissa, round bit, sticky
    bit. *)
Definition rec_ok (mrs : shr_record) (X D : Z) : Prop :=
  0 <= shr_m mrs /\ loc_ok (loc_of_shr_record mrs) (shr_m mrs) X D.

(** [bpow e] is 2 to the power [e]. *)
Definition bpow (e : Z) : R := powerRZ 2 e.

(** The real value of a float (0 for what is not finite). *)
Definition F2R (x : float64) : R :=
  match x with
  | S754_finite s m e => ((if s then - IZR (Z.pos m) else IZR (Z.pos m)) * bpow e)%R
  | _ => 0%R
  end.

(** A positive normal double: a mantissa of 53 bits and an exponent in
    range. *)
Definition pos_normal (x : float64) : Prop :=
  match x with
  | S754_finite false m e => Z.pos (digits2_pos m) = 53 /\ -1074 <= e <= 971
  | _ => False
  end.

(** [f] is a rounding to nearest of the real [x]: a positive normal
    double at most half a unit in the last place from [x], and a quarter
    when [f] is a power of two above [x] (the unit halves below it). *)
Definition rounded (x : R) (f : float64) : Prop :=
  pos_normal f /\
  match f with
  | S754_finite _ m e =>
      (Rabs (F2R f - x) <= bpow e / 2)%R
      /\ (Z.pos m = 2 ^ 52 -> (F2R f - x <= bpow e / 4)%R)
  | _ => False
  end.

(** The constants of the source as doubles (checked against [float_lit]
    below). *)
Definition lit_1_5 : float64 := S754_finite false 6755399441055744 (-52).
Definition lit_1_3 : float64 := S754_finite false 5854679515581645 (-52).
Definition lit_0_9 : float64 := S754_finite false 8106479329266893 (-53).


Definition lit_0_1 : float64 := S754_finite false 7205759403792794 (-56).
Definition lit_1 : float64 := S754_finite false 4503599627370496 (-52).

(** The points of a placement in the specification. *)
Definition placementPoints (placement : Z) : Z :=
  if placement =? 1 then 30 else if placement =? 2 then 15
  else if placement =? 3 then 5 else 0.

Definition clamp (lo hi z : Z) : Z := Z.max lo (Z.min hi z).

(** What the specification says [CalculateScore] returns: the base score
    [correct * 100], times 15/10 or 13/10 truncated toward zero when the
    bonus of the mode applies; the accuracy [correct / total >= 0.9] is
    compared as [9 * total <= 10 * correct]. *)
Definition score_spec (mode : modes.GameMode) (correctAttempts totalAttempts : Z)
    (averageTime : float64) : Z :=
  if String.eqb mode modes.ModeRapidFire then
    if flt averageTime (float_lit 5 1)
    then Z.quot (correctAttempts * 100 * 15) 10 else correctAttempts * 100
  else if String.eqb mode modes.ModeTotalGame then
    if 9 * totalAttempts <=? 10 * correctAttempts
    then Z.quot (correctAttempts * 100 * 13) 10 else correctAttempts * 100
  else correctAttempts * 100.

(** [n] is an integer nearest to the points of the specification,
    [placementPoints * (1 + 0.1 * (playerCount - 2)) * (1.5 or 1)], the
    bonus per player counted from the third player on: twenty times that
    value is the integer on the right. *)
Definition nearest_points (placement playerCount : Z) (isTournament : bool)
    (n : Z) : Prop :=
  Z.abs (20 * n
         - placementPoints placement * (10 + Z.max 0 (playerCount - 2))
           * (if isTournament then 3 else 2)) <= 10.


(** The settings the tests of [ValidateSettings] are run on. *)
Definition settingsOf (mode : modes.GameMode) (players rounds : Z)
    (limit : Duration) (level : Z) : modes.GameSettings :=
  {| modes.Mode := mode; modes.MaxPlayers := players; modes.MaxRounds := rounds;
     modes.TimeLimit := limit; modes.WordLevel := level; modes.Category := EmptyString;
     modes.IsTournament := false; modes.IsPrivate := false;
     modes.EnableVideo := false; modes.EnableVoice := false;
     modes.RecordGame := false |}.

(** ** Operations within a turn *)


Definition unmasks (op : Op) : bool :=
  match op with
  | OpRevealWord | OpUnmaskWord => true
  | _ => false
  end.

(** The engine after a sequence of operations. *)
Definition run (g : GameEngine) (ops : list Op) : GameEngine := fold_left step ops g.



(** The kinds of hint [dictionaryService.GetHint] has a case for. *)
Definition servedHintTypes : list HintType :=
  [ HintTypeDefinition; HintTypeSentence; HintTypeEtymology;
    HintTypePartOfSpeech; HintTypePronunciation ].

(** The field of the word a kind of hint stands for. *)
Definition hintField (word : Word) (hintType : HintType) : string :=
  if String.eqb hintType HintTypeDefinition then word_Definition word
  else if String.eqb hintType HintTypeSentence then word_ExampleSentence word
  else if String.eqb hintType HintTypeEtymology then word_Etymology word
  else if String.eqb hintType HintTypePartOfSpeech then word_PartOfSpeech word
  else word_Pronunciation word.

(** An engine with one more hint used. *)
Definition counted (g : GameEngine) : GameEngine :=
  {| ID := ID g; CurrentWord := CurrentWord g; WordMasked := WordMasked g;
     HintsUsed := HintsUsed g + 1; TurnStartedAt := TurnStartedAt g |}.

(** The error of the engine for a kind of hint the dictionary refuses. *)
Definition invalidHintType (hintType : HintType) : error :=
  ErrWrap "failed to get hint" (ErrNew ("invalid hint type: " ++ hintType)).

(** ** Sequences of service calls

    The calls of [GameService], each with the readings of its
    environment. *)
Inductive SOp :=
  | SCreateGame (id : string) (now : Time) (hostID : string)
      (gameType : GameType) (settings : GameSettings)
  | SJoinGame (id : string) (now : Time) (gameID playerID : string)
  | SStartGame (wordService : WordService) (dict : DictionaryService)
      (now : Time) (gameID userID : string)
  | SMakeAttempt (now : Time) (gameID playerID : string)
      (attempt : SpellingAttempt)
  | SGetHint (dict : DictionaryService) (now : Time) (unixNano : Z)
      (gameID playerID : string)
  | SGetGame (gameID : string).

(** The service and the error a call leaves. *)
Definition answer {A} (o : outcome (gameService * (A * option error)))
  : outcome (gameService * option error) :=
  match o with
  | Returns (s, (_, e)) => Returns (s, e)
  | Waits => Waits
  | Panics => Panics
  end.

Definition call (s : gameService) (op : SOp)
  : outcome (gameService * option error) :=
  match op with
  | SCreateGame id now hostID gameType settings =>
      answer (CreateGame id now hostID gameType settings s)
  | SJoinGame id now gameID playerID =>
      answer (JoinGame id now gameID playerID s)
  | SStartGame wordService dict now gameID userID =>
      answer (StartGame wordService dict now gameID userID s)
  | SMakeAttempt now gameID playerID attempt =>
      MakeAttempt now gameID playerID attempt s
  | SGetHint dict now unixNano gameID playerID =>
      answer (service_GetHint dict now unixNano gameID playerID s)
  | SGetGame gameID => Returns (s, snd (GetGame gameID s))
  end.

(** One call after the other, whatever each returns. *)
Fixpoint calls (s : gameService) (ops : list SOp) : outcome gameService :=
  match ops with
  | [] => Returns s
  | op :: ops' =>
      match call s op with
      | Returns (s', _) => calls s' ops'
      | Waits => Waits
      | Panics => Panics
      end
  end.

(** ** Package strings: [Split] and [Join]

    [strings.Split] for a separator of one byte (the repository splits on
    a space): the pieces between the separators, in order; a string
    without the separator is its own single piece. *)
Fixpoint Split (s : string) (sep : ascii) : list string :=
  match s with
  | EmptyString => [EmptyString]
  | String c s' =>
      if Ascii.eqb c sep then EmptyString :: Split s' sep
      else
        match Split s' sep with
        | [] => [String c EmptyString]
        | piece :: pieces => String c piece :: pieces
        end
  end.

(** [strings.Join]: the elements with the separator between them. *)
Fixpoint Join (elems : list string) (sep : string) : string :=
  match elems with
  | [] => EmptyString
  | [e] => e
  | e :: elems' => (e ++ sep ++ Join elems' sep)%string
  end.

(** ** Package auth: the request context and the middleware

    A [context.Context] carries values under keys; the keys of package
    [auth] are of its type [contextKey], which no key of another type
    equals, so that a context is, for this package, the chain of the
    entries under [contextKey] keys, the innermost first.  A value is a
    string, a pointer to a [User], nil, or something else. *)
Record User := mkUser {
  user_ID : string;
  user_Username : string;
  user_IsPremium : bool;
}.

Inductive value :=
  | VString (s : string)
  | VUser (user : User)
  | VNil
  | VOther.

Definition contextKey := string.
Definition Context := list (contextKey * value).

Definition userIDKey : contextKey := "userID".
Definition UserContextKey : contextKey := "user".

Definition WithValue (ctx : Context) (key : contextKey) (val : value) : Context :=
  (key, val) :: ctx.

(** [ctx.Value(key)]: the value of the innermost entry under the key;
    [None] is the nil interface of a context without such an entry. *)
Fixpoint Value (ctx : Context) (key : contextKey) : option value :=
  match ctx with
  | [] => None
  | (k, v) :: parent => if String.eqb k key then Some v else Value parent key
  end.

Definition GetUserIDFromContext (ctx : Context) : string :=
  match Value ctx userIDKey with
  | Some (VString id) => id
  | _ => EmptyString
  end.

Definition SetUserIDInContext (ctx : Context) (userID : string) : Context :=
  WithValue ctx userIDKey (VString userID).

Definition GetUser (ctx : Context) : option User :=
  match Value ctx UserContextKey with
  | Some (VUser user) => Some user
  | _ => None
  end.

Definition StatusOK : Z := 200.
Definition StatusBadRequest : Z := 400.
Definition StatusUnauthorized : Z := 401.
Definition StatusForbidden : Z := 403.
Definition StatusInternalServerError : Z := 500.

(** A request, by what the middleware reads: the Authorization header
    (empty when the request has none) and the context. *)
Record Request := mkRequest {
  Authorization : string;
  req_ctx : Context;
}.

Definition withUser (r : Request) (user : User) : Request :=
  {| Authorization := Authorization r;
     req_ctx := WithValue (req_ctx r) UserContextKey (VUser user) |}.

Section Auth.
(** The state the handlers work on, and [Service.ValidateToken] (it
    parses the token and reads the user from the database). *)
Context {St : Type}.
Context (ValidateToken : string -> User + error).

(** A handler answers with a status, on a state it may change. *)
Definition Handler := Request -> St -> outcome (St * Z).

Definition Middleware (next : Handler) : Handler := fun r st =>
  if String.eqb (Authorization r) EmptyString then next r st
  else
    match Split (Authorization r) " " with
    | [scheme; token] =>
        if negb (String.eqb scheme "Bearer") then Returns (st, StatusUnauthorized)
        else
          match ValidateToken token with
          | inr _ => Returns (st, StatusUnauthorized)
          | inl user => next (withUser r user) st
          end
    | _ => Returns (st, StatusUnauthorized)
    end.

Definition RequireAuth (next : Handler) : Handler := fun r st =>
  match Value (req_ctx r) UserContextKey with
  | None | Some VNil => Returns (st, StatusUnauthorized)
  | Some _ => next r st
  end.

(** The type assertion of [RequirePremium] is unchecked: it panics on
    anything that is not a user. *)
Definition RequirePremium (next : Handler) : Handler := fun r st =>
  match Value (req_ctx r) UserContextKey with
  | Some (VUser user) =>
      if negb (user_IsPremium user) then Returns (st, StatusForbidden)
      else next r st
  | _ => Panics
  end.
End Auth.

(** ** The HTTP handler of attempts *)
Record MakeAttemptRequest := mkAttemptRequest {
  req_Type : AttemptType;
  req_Text : option string;
  req_VoiceData : list Z;
}.

(** The attempt [Handler.MakeAttempt] builds from the request, or the
    status it refuses the request with. *)
Definition attemptOf (req : MakeAttemptRequest) : SpellingAttempt + Z :=
  if String.eqb (req_Type req) AttemptTypeText then
    match req_Text req with
    | None => inr StatusBadRequest
    | Some text =>
        inl {| attempt_Type := AttemptTypeText; attempt_VoiceData := [];
               attempt_Text := text |}
    end
  else if String.eqb (req_Type req) AttemptTypeVoice then
    if (length (req_VoiceData req) =? 0)%nat then inr StatusBadRequest
    else inl {| attempt_Type := AttemptTypeVoice;
                attempt_VoiceData := req_VoiceData req;
                attempt_Text := EmptyString |}
  else inr StatusBadRequest.

(** [Handler.MakeAttempt]: [gameID] is the parameter of the route,
    [body] the request body decoded (or the error of the decoder). *)
Definition handler_MakeAttempt (now : Time) (gameID : string)
    (body : MakeAttemptRequest + error)
  : @Handler gameService := fun r s =>
  if String.eqb gameID EmptyString then Returns (s, StatusBadRequest)
  else
    let userID := GetUserIDFromContext (req_ctx r) in
    if String.eqb userID EmptyString then Returns (s, StatusUnauthorized)
    else
      match body with
      | inr _ => Returns (s, StatusBadRequest)
      | inl req =>
          match attemptOf req with
          | inr status => Returns (s, status)
          | inl attempt =>
              match MakeAttempt now gameID userID attempt s with
              | Returns (s', Some _) => Returns (s', StatusInternalServerError)
              | Returns (s', None) => Returns (s', StatusOK)
              | Waits => Waits
              | Panics => Panics
              end
          end
      end.

Definition testUser : User :=
  {| user_ID := "u1"; user_Username := "testuser"; user_IsPremium := false |}.

Definition voiceRequest : MakeAttemptRequest :=
  {| req_Type := AttemptTypeVoice; req_Text := None; req_VoiceData := [82; 73; 70; 70] |}.



Definition tokenOf (user : User) (token : string) : string -> User + error :=
  fun t => if String.eqb t token then inl user else inr (ErrNew "invalid or expired token").

(** Settings of package [modes] for a tournament that is recorded. *)
Definition recordedTournament : modes.GameSettings :=
  {| modes.Mode := modes.ModeRapidFire; modes.MaxPlayers := 2; modes.MaxRounds := 0;
     modes.TimeLimit := 10 * Minute; modes.WordLevel := 1;
     modes.Category := EmptyString; modes.IsTournament := true;
     modes.IsPrivate := false; modes.EnableVideo := true;
     modes.EnableVoice := true; modes.RecordGame := true |}.

(** ** Package strings: [ToLower] and [ReplaceAll] (on ASCII) *)

(** The letters A-Z lowered; the other bytes as they are. *)
Definition toLower (c : ascii) : ascii :=
  let b := byte_of c in
  if (65 <=? b) && (b <=? 90) then ascii_of_nat (Z.to_nat (b + 32)) else c.

Fixpoint ToLower (s : string) : string :=
  match s with
  | EmptyString => EmptyString
  | String c s' => String (toLower c) (ToLower s')
  end.

(** [strings.ReplaceAll] for a pattern [old] that is not empty: the
    matches are found from the left and do not overlap; [skip] counts the
    bytes of a match still to be dropped. *)
Fixpoint replaceFrom (skip : nat) (s old new : string) : string :=
  match s with
  | EmptyString => EmptyString
  | String c s' =>
      match skip with
      | S k => replaceFrom k s' old new
      | O =>
          if String.prefix old s
          then (new ++ replaceFrom (String.length old - 1) s' old new)%string
          else String c (replaceFrom 0 s' old new)
      end
  end.

(** With an empty pattern [new] is put in front and after every
    character. *)
Fixpoint insertAfterEach (s new : string) : string :=
  match s with
  | EmptyString => EmptyString
  | String c s' => String c (new ++ insertAfterEach s' new)
  end.

Definition ReplaceAll (s old new : string) : string :=
  match old with
  | EmptyString => (new ++ insertAfterEach s new)%string
  | _ => replaceFrom 0 s old new
  end.

(** ** The word service: [TranscribeVoice]

    The transcription API is reached over HTTP: [api] is what the client
    gets for the request that carries the voice data (a response, or the
    error of the transport), [decode] is the JSON decoder on the body of
    a response, for a [TranscriptionResponse]: the [text] of the
    document, or the decoder's error.  The form is written into a buffer
    in memory, which does not fail. *)
Record Response := mkResponse {
  StatusCode : Z;
  Body : string;
}.

(** The cleaning of the transcribed text. *)
Definition cleanTranscript (text : string) : string :=
  let text := TrimSpace text in
  let text := ToLower text in
  let text := ReplaceAll text "." EmptyString in
  let text := ReplaceAll text "," EmptyString in
  let text := ReplaceAll text "!" EmptyString in
  ReplaceAll text "?" EmptyString.

Definition TranscribeVoice (api : list Z -> Response + error)
    (decode : string -> string + error) (voiceData : list Z)
  : string * option error :=
  match api voiceData with
  | inr err => (EmptyString, Some (ErrWrap "failed to send request" err))
  | inl resp =>
      if negb (StatusCode resp =? StatusOK)
      then (EmptyString,
            Some (ErrNew ("API request failed with status "
                          ++ pretty (StatusCode resp) ++ ": " ++ Body resp)))
      else
        match decode (Body resp) with
        | inr err => (EmptyString, Some (ErrWrap "failed to decode response" err))
        | inl text => (cleanTranscript text, None)
        end
  end.

(** A transcription API and a decoder with one fixed answer. *)
Definition testApi (raw : string) : list Z -> Response + error :=
  fun _ => inl {| StatusCode := StatusOK; Body := raw |}.

Definition testDecode (raw text : string) : string -> string + error :=
  fun body => if String.eqb body raw then inl text
              else inr (ErrNew "unexpected end of JSON input").

(** The characters of a string. *)
Definition chars (s : string) : list ascii := list_ascii_of_string s.

Definition isUpper (c : ascii) : bool := (65 <=? byte_of c) && (byte_of c <=? 90).

(** ** The dictionary service: [GetWordInfo]

    The entries of the dictionary API, by the fields [GetWordInfo] reads.
    An element of [DT] is a decoded JSON value ([interface{}]): a string,
    or something else. *)
Inductive jsonValue :=
  | JString (s : string)
  | JOther.

Record Sense := mkSense {
  DT : list (list jsonValue);
  VIS : list string;
}.

Record Pron := mkPron {
  Subdirectory : string;
  FileName : string;
}.

Record DictionaryEntry := mkEntry {
  IPA : string;
  MWOD : list Pron;
  FL : string;
  Def : list (list (list Sense));
  Et : list string;
}.

(** What the lookup over HTTP comes to: one of the four steps fails
    (building the request, sending it, reading the body, parsing the
    body as a list of entries), or the entries are there. *)
Inductive lookupAnswer :=
  | RequestFails (err : error)
  | SendFails (err : error)
  | ReadFails (err : error)
  | ParseFails (err : error)
  | Entries (entries : list DictionaryEntry).

(** The loop over the senses of the first definition; it yields the
    definition and the example sentence.  The loop stops at the first
    sense whose [DT[0][1]] is a string; the example sentence is the one
    of the last sense seen before that has one. *)
Fixpoint scanSenses (sseqs : list (list Sense)) (example : string)
  : string * string :=
  match sseqs with
  | [] => (EmptyString, example)
  | sseq :: rest =>
      match sseq with
      | [] => scanSenses rest example
      | sense :: _ =>
          match DT sense with
          | (_ :: JString def :: _) :: _ => (TrimSpace def, example)
          | _ =>
              match VIS sense with
              | t :: _ => scanSenses rest (TrimSpace t)
              | [] => scanSenses rest example
              end
          end
      end
  end.

Definition dictionaryService_GetWordInfo (api : string -> lookupAnswer)
    (word : string) : option Word * option error :=
  match api word with
  | RequestFails err => (None, Some (ErrWrap "failed to create request" err))
  | SendFails err => (None, Some (ErrWrap "failed to get word info" err))
  | ReadFails err => (None, Some (ErrWrap "failed to read response" err))
  | ParseFails err => (None, Some (ErrWrap "failed to parse response" err))
  | Entries [] => (None, Some (ErrNew ("word not found: " ++ word)))
  | Entries (entry :: _) =>
      let (audioURL, pronunciation) :=
        match MWOD entry with
        | pron :: _ =>
            (("https://media.merriam-webster.com/audio/prons/en/us/mp3/"
              ++ Subdirectory pron ++ "/" ++ FileName pron ++ ".mp3")%string,
             IPA entry)
        | [] => (EmptyString, EmptyString)
        end in
      let (definition, example) :=
        match Def entry with
        | sseqs :: _ => scanSenses sseqs EmptyString
        | [] => (EmptyString, EmptyString)
        end in
      let etymology :=
        match Et entry with
        | [] => EmptyString
        | et => Join et " "
        end in
      (Some {| word_ID := EmptyString; word_Word := word;
               word_Definition := definition;
               word_ExampleSentence := example;
               word_Etymology := etymology;
               word_PartOfSpeech := FL entry;
               word_Pronunciation := pronunciation;
               word_AudioURL := audioURL |}, None)
  end.

(** An entry as the API gives for a noun with one sense. *)
Definition testEntry : DictionaryEntry :=
  {| IPA := "test"; MWOD := [ {| Subdirectory := "t"; FileName := "test0001" |} ];
     FL := "noun";
     Def := [ [ [ {| DT := [ [JString "text"; JString " a means of testing "] ];
                     VIS := ["a test of skill"%string] |} ] ] ];
     Et := ["Middle English"%string; "from Latin testum"%string] |}.

(** * Properties *)

(** ** Integers and instants *)

Lemma int_wrap_id z : is_int z -> int_wrap z = z.
Proof.
  unfold is_int, int_wrap, int_min, int_max. intros H.
  rewrite Z.mod_small; lia.
Qed.

Lemma int_wrap_bounds z : is_int (int_wrap z).
Proof.
  unfold is_int, int_wrap, int_min, int_max.
  pose proof (Z.mod_pos_bound (z + 2 ^ 63) (2 ^ 64) ltac:(lia)). lia.
Qed.

(** ** The engine *)

Lemma GetHint_cases dict hintType g :
  (GetHint dict hintType g = (g, (EmptyString, Some ErrNoWordSet))
   /\ CurrentWord g = None)
  \/ (GetHint dict hintType g = (g, (EmptyString, Some ErrMaxHintsUsed))
      /\ MaxHints <= HintsUsed g)
  \/ (exists w err,
        CurrentWord g = Some w /\ HintsUsed g < MaxHints
        /\ snd (dict_GetHint dict w hintType) = Some err
        /\ GetHint dict hintType g
           = (g, (EmptyString, Some (ErrWrap "failed to get hint" err))))
  \/ (exists w hint,
        CurrentWord g = Some w /\ HintsUsed g < MaxHints
        /\ dict_GetHint dict w hintType = (hint, None)
        /\ GetHint dict hintType g
           = ({| ID := ID g; CurrentWord := CurrentWord g;
                 WordMasked := WordMasked g;
                 HintsUsed := int_wrap (HintsUsed g + 1);
                 TurnStartedAt := TurnStartedAt g |}, (hint, None))).
Proof.
  unfold GetHint. destruct (CurrentWord g) as [w|] eqn:Hw; [|by left].
  right. destruct (Z.leb_spec MaxHints (HintsUsed g)) as [Hle|Hlt]; [by left|].
  right. destruct (dict_GetHint dict w hintType) as [hint [err|]] eqn:Hd.
  - left. exists w, err. by rewrite Hd.
  - right. exists w, hint. by rewrite Hd.
Qed.

Lemma step_hints_in_budget g op : hints_in_budget g -> hints_in_budget (step g op).
Proof.
  unfold hints_in_budget, MaxHints. intros Hg. destruct op; simpl; try done.
  - unfold StartNewTurn. by destruct (GetWordInfo dict EmptyString) as [w [e|]].
  - unfold StartTurn. by destruct (GetWordInfo dict word) as [w [e|]].
  - destruct (GetHint_cases dict hintType g)
      as [[-> _]|[[-> _]|[(w & e & _ & _ & _ & ->)|(w & h & _ & Hlt & _ & ->)]]];
      simpl; try done.
    unfold MaxHints in Hlt. rewrite int_wrap_id; [lia|].
    unfold is_int, int_min, int_max. lia.
  - unfold RevealWord. by destruct (CurrentWord g).
  - unfold UnmaskWord. by destruct (CurrentWord g).
Qed.

Lemma states_hints_in_budget ops : forall g,
  hints_in_budget g -> Forall hints_in_budget (states g ops).
Proof.
  induction ops as [|op ops IH]; intros g Hg; simpl.
  - by constructor.
  - constructor; [done|]. apply IH. by apply step_hints_in_budget.
Qed.

(** When the budget is used up the engine refuses, whatever the
    dictionary would answer. *)
Lemma GetHint_exhausted dict hintType g :
  CurrentWord g <> None -> HintsUsed g = MaxHints ->
  GetHint dict hintType g = (g, (EmptyString, Some ErrMaxHintsUsed)).
Proof.
  intros Hw Hh. unfold GetHint. destruct (CurrentWord g); [|done].
  rewrite Hh. by rewrite Z.leb_refl.
Qed.

(** A hint that is granted counts for one. *)
Lemma GetHint_granted dict hintType g g' hint :
  0 <= HintsUsed g ->
  GetHint dict hintType g = (g', (hint, None)) ->
  HintsUsed g' = HintsUsed g + 1 /\ HintsUsed g < MaxHints
  /\ CurrentWord g' = CurrentWord g /\ CurrentWord g <> None.
Proof.
  intros H0 H.
  destruct (GetHint_cases dict hintType g)
    as [[E _]|[[E _]|[(w & e & _ & _ & _ & E)|(w & h & Hw & Hlt & _ & E)]]];
    rewrite E in H; try discriminate.
  injection H as <- _. simpl. unfold MaxHints in *.
  rewrite int_wrap_id; [by rewrite Hw|].
  unfold is_int, int_min, int_max. lia.
Qed.

(** C2.  From a new engine, whatever the operations and whatever the
    dictionary answers, the number of hints used stays between 0 and 3 in
    every state the engine goes through; and once a turn has been granted
    three hints, a fourth request is refused with [ErrMaxHintsUsed] and
    the engine, with its count of 3, is left as it was. *)
Theorem hints_used_within_budget :
  (forall id ops, Forall hints_in_budget (states (NewGameEngine id) ops))
  /\ (forall d0 d1 d2 d3 d4 now word h1 h2 h3 h4 c1 c2 c3 g0 g1 g2 g3 g4,
        StartTurn d0 now word g0 = (g1, None) ->
        GetHint d1 h1 g1 = (g2, (c1, None)) ->
        GetHint d2 h2 g2 = (g3, (c2, None)) ->
        GetHint d3 h3 g3 = (g4, (c3, None)) ->
        GetHint d4 h4 g4 = (g4, (EmptyString, Some ErrMaxHintsUsed))
        /\ HintsUsed g4 = 3).
Proof.
  split.
  - intros id ops. apply states_hints_in_budget.
    unfold hints_in_budget, MaxHints. simpl. lia.
  - intros d0 d1 d2 d3 d4 now word h1 h2 h3 h4 c1 c2 c3 g0 g1 g2 g3 g4
      Hs H1 H2 H3.
    assert (H0 : HintsUsed g1 = 0).
    { unfold StartTurn in Hs. destruct (GetWordInfo d0 word) as [w [e|]];
        [discriminate|]. by injection Hs as <-. }
    apply GetHint_granted in H1 as (E1 & _ & _ & _); [|lia].
    apply GetHint_granted in H2 as (E2 & _ & _ & _); [|lia].
    apply GetHint_granted in H3 as (E3 & _ & W3 & W3'); [|lia].
    assert (E : HintsUsed g4 = 3) by lia.
    split; [|done]. apply GetHint_exhausted; [congruence|done].
Qed.

Lemma hints_used_within_budget_witness :
  let g1 := fst (StartTurn okDict 5 "TESTING" (NewGameEngine "test-game")) in
  let g2 := fst (GetHint okDict HintTypeDefinition g1) in
  let g3 := fst (GetHint okDict HintTypeEtymology g2) in
  let g4 := fst (GetHint okDict HintTypePronunciation g3) in
  GetHint failingDict HintTypeDefinition g4 = (g4, (EmptyString, Some ErrMaxHintsUsed))
  /\ HintsUsed g4 = 3.
Proof.
  intros g1 g2 g3 g4.
  apply (proj2 hints_used_within_budget okDict okDict okDict okDict failingDict
           5 "TESTING"%string HintTypeDefinition HintTypeEtymology
           HintTypePronunciation HintTypeDefinition
           "A test word"%string "A test word"%string "A test word"%string
           (NewGameEngine "test-game") g1 g2 g3 g4); reflexivity.
Defined.

(** C6.  [StartTurn] succeeds exactly when the dictionary returns the
    word without an error, and then, whatever the engine held before, the
    current word is the word just fetched, the word is masked, no hint is
    counted as used and the turn starts at the instant of the call. *)
Theorem StartTurn_opens_fresh_turn dict now word g :
  snd (GetWordInfo dict word) = None ->
  snd (StartTurn dict now word g) = None
  /\ CurrentWord (fst (StartTurn dict now word g)) = fst (GetWordInfo dict word)
  /\ WordMasked (fst (StartTurn dict now word g)) = true
  /\ HintsUsed (fst (StartTurn dict now word g)) = 0
  /\ TurnStartedAt (fst (StartTurn dict now word g)) = Some now.
Proof.
  unfold StartTurn. destruct (GetWordInfo dict word) as [w [e|]]; simpl; [done|].
  intros _. by repeat split.
Qed.

Lemma StartTurn_opens_fresh_turn_witness :
  let g := {| ID := "test-game"; CurrentWord := None; WordMasked := false;
              HintsUsed := 3; TurnStartedAt := Some 1 |} in
  snd (StartTurn okDict 7 "TESTING" g) = None
  /\ CurrentWord (fst (StartTurn okDict 7 "TESTING" g)) = Some testWord
  /\ WordMasked (fst (StartTurn okDict 7 "TESTING" g)) = true
  /\ HintsUsed (fst (StartTurn okDict 7 "TESTING" g)) = 0
  /\ TurnStartedAt (fst (StartTurn okDict 7 "TESTING" g)) = Some 7.
Proof.
  intros g. apply (StartTurn_opens_fresh_turn okDict 7 "TESTING"%string g).
  reflexivity.
Defined.

(** Conversely a failing dictionary leaves the engine as it was. *)
Lemma StartTurn_dictionary_error dict now word g err :
  snd (GetWordInfo dict word) = Some err ->
  StartTurn dict now word g = (g, Some (ErrWrap "failed to get word info" err)).
Proof.
  unfold StartTurn. destruct (GetWordInfo dict word) as [w [e|]]; simpl; [|done].
  by intros [= ->].
Qed.

(** C10.  With a word set and fewer than three hints used, an error of
    the dictionary makes [GetHint] return an error (wrapping it) and the
    engine is unchanged, the count of hints included; in general the
    engine changes only in a call that returns a hint. *)
Theorem GetHint_error_leaves_engine dict hintType g w err :
  CurrentWord g = Some w -> HintsUsed g < MaxHints ->
  snd (dict_GetHint dict w hintType) = Some err ->
  GetHint dict hintType g
    = (g, (EmptyString, Some (ErrWrap "failed to get hint" err)))
  /\ (forall d h g0, snd (snd (GetHint d h g0)) <> None ->
                     fst (GetHint d h g0) = g0).
Proof.
  intros Hw Hlt Hd. split.
  - unfold GetHint. rewrite Hw.
    destruct (Z.leb_spec MaxHints (HintsUsed g)); [lia|].
    destruct (dict_GetHint dict w hintType) as [hint [e|]]; simpl in *;
      congruence.
  - intros d h g0 Herr.
    destruct (GetHint_cases d h g0)
      as [[E _]|[[E _]|[(w0 & e & _ & _ & _ & E)|(w0 & c & _ & _ & _ & E)]]];
      rewrite E in *; simpl in *; congruence.
Qed.

(** The dictionary of the repository knows no hint of the kind
    example_sentence, one of the five kinds the service draws from. *)
Lemma GetHint_error_leaves_engine_witness :
  GetHint (dictionaryService (fun _ => (Some testWord, None)))
    HintTypeExampleSentence testEngine
    = (testEngine,
       (EmptyString,
        Some (ErrWrap "failed to get hint"
                (ErrNew "invalid hint type: example_sentence"))))
  /\ (forall d h g0, snd (snd (GetHint d h g0)) <> None ->
                     fst (GetHint d h g0) = g0).
Proof.
  apply (GetHint_error_leaves_engine
           (dictionaryService (fun _ => (Some testWord, None)))
           HintTypeExampleSentence testEngine
           testWord (ErrNew "invalid hint type: example_sentence")).
  - reflexivity.
  - unfold MaxHints. simpl. lia.
  - reflexivity.
Defined.

(** ** Comparing an attempt with the word *)

Lemma foldEq_lower a b :
  foldEq a b = true <-> lowerByte (byte_of a) = lowerByte (byte_of b).
Proof.
  unfold foldEq, lowerByte.
  destruct (Z.eqb_spec (byte_of a) (byte_of b)) as [->|Hne]; [done|].
  rewrite !andb_true_iff, !Z.leb_le, Z.eqb_eq.
  destruct (Z.leb_spec 65 (byte_of a)), (Z.leb_spec (byte_of a) 90),
    (Z.leb_spec 65 (byte_of b)), (Z.leb_spec (byte_of b) 90); simpl; lia.
Qed.

(** [EqualFold] compares the two strings byte for byte once the letters
    A-Z are lowered; nothing is trimmed. *)
Lemma EqualFold_lower s : forall t,
  EqualFold s t = true <-> lowerBytes s = lowerBytes t.
Proof.
  induction s as [|a s IH]; intros [|b t]; simpl; try done.
  rewrite andb_true_iff, foldEq_lower, IH. split.
  - by intros [-> ->].
  - by intros [= -> ->].
Qed.


(** [TrimSpace] drops the white space in front and at the end. *)
Lemma trimLeft_space c s : isSpace c = true -> trimLeft (String c s) = trimLeft s.
Proof. intros H. simpl. by rewrite H. Qed.

Lemma trimRight_space s c :
  isSpace c = true ->
  trimRight (s ++ String c EmptyString)%string = trimRight s.
Proof.
  intros H. induction s as [|a s IH]; simpl.
  - by rewrite H.
  - by rewrite IH.
Qed.

Lemma trimLeft_nonspace c s : isSpace c = false -> trimLeft (String c s) = String c s.
Proof. intros H. simpl. by rewrite H. Qed.

Lemma trimRight_trimLeft_space c s :
  isSpace c = true -> TrimSpace (String c s) = TrimSpace s.
Proof. intros H. unfold TrimSpace. by rewrite trimLeft_space. Qed.

Lemma trimLeft_head s :
  match trimLeft s with String c _ => isSpace c = false | EmptyString => True end.
Proof.
  induction s as [|a s IH]; simpl; [done|].
  destruct (isSpace a) eqn:E; [done|]. by rewrite E.
Qed.

Lemma TrimSpace_padded s c1 c2 :
  isSpace c1 = true -> isSpace c2 = true ->
  match trimLeft s with EmptyString => False | _ => True end ->
  TrimSpace (String c1 (s ++ String c2 EmptyString)) = TrimSpace s.
Proof.
  intros H1 H2 Hne. rewrite trimRight_trimLeft_space by done. unfold TrimSpace.
  assert (E : trimLeft (s ++ String c2 EmptyString)
              = (trimLeft s ++ String c2 EmptyString)%string).
  { clear H1. induction s as [|a s IH]; simpl in *; [done|].
    destruct (isSpace a); [by apply IH|done]. }
  rewrite E. by apply trimRight_space.
Qed.

Lemma ValidateSpelling_lower word attempt :
  ValidateSpelling word attempt = true
  <-> lowerBytes (TrimSpace word) = lowerBytes (TrimSpace attempt).
Proof. apply EqualFold_lower. Qed.


(** With a turn open and not timed out, [ValidateAttempt] is [EqualFold]
    of the attempt, as submitted, and the word. *)
Lemma ValidateAttempt_open now attempt g w t :
  CurrentWord g = Some w -> TurnStartedAt g = Some t ->
  Since now t <= TurnTimeout ->
  ValidateAttempt now attempt g = (EqualFold attempt (word_Word w), None).
Proof.
  intros Hw Ht Hle. unfold ValidateAttempt. rewrite Hw, Ht.
  destruct (Z.ltb_spec TurnTimeout (Since now t)); [lia|done].
Qed.

(** C1.  Against the word TESTING, one second into the turn, the engine
    accepts the attempts testing and Testing and rejects the attempt
    TESTING written between two spaces: [ValidateAttempt] folds case and
    does not trim.  The word service's [ValidateSpelling] accepts the
    same attempt. *)
Theorem ValidateAttempt_does_not_trim :
  ValidateAttempt Second "testing" testEngine = (true, None)
  /\ ValidateAttempt Second "Testing" testEngine = (true, None)
  /\ ValidateAttempt Second " TESTING " testEngine = (false, None)
  /\ ValidateSpelling "TESTING" " TESTING " = true.
Proof. repeat split; reflexivity. Qed.

(** ** The game service *)

Lemma emitEvent_room {A} eventType gameID playerID now payload s
    (k : gameService -> outcome A) :
  (length (eventChan s) < eventChanCap)%nat ->
  emitEvent eventType gameID playerID now payload s k
  = k {| db := db s; activeGames := activeGames s;
         eventChan := eventChan s ++
           [ {| event_Type := eventType; event_GameID := gameID;
                event_PlayerID := playerID; event_Timestamp := now;
                event_Payload := payload |} ] |}.
Proof. intros H. unfold emitEvent. by destruct (decide _). Qed.

(** [GetGame] hands no game to its caller: a game that is not in the
    table is not found, and the row of one that is cannot be scanned. *)
Lemma GetGame_fails gameID s :
  GetGame gameID s = (None, Some (getGameError gameID s)).
Proof.
  unfold GetGame, selectGame, getGameError.
  by destruct (games (db s) !! gameID).
Qed.

Lemma CreateGame_fails id now hostID gameType settings s :
  CreateGame id now hostID gameType settings s
  = Returns (s, (None, Some (ErrWrap "failed to create game" errConvertSettings))).
Proof. reflexivity. Qed.

Lemma JoinGame_fails id now gameID playerID s :
  JoinGame id now gameID playerID s
  = Returns (s, (None, Some (getGameError gameID s))).
Proof. unfold JoinGame. by rewrite GetGame_fails. Qed.

Lemma StartGame_fails words dict now gameID userID s :
  StartGame words dict now gameID userID s
  = Returns (s, (None, Some (getGameError gameID s))).
Proof. unfold StartGame. by rewrite GetGame_fails. Qed.

Lemma MakeAttempt_fails now gameID playerID attempt s :
  MakeAttempt now gameID playerID attempt s
  = Returns (s, Some (ErrWrap "failed to get game" (getGameError gameID s))).
Proof. unfold MakeAttempt. by rewrite GetGame_fails. Qed.

Lemma service_GetHint_fails dict now unixNano gameID playerID s :
  service_GetHint dict now unixNano gameID playerID s
  = Returns (s, (None, Some (ErrWrap "failed to get game" (getGameError gameID s)))).
Proof. unfold service_GetHint. by rewrite GetGame_fails. Qed.


(** No path of [MakeAttempt] or of the service's [GetHint] compares the
    player with the owner of the turn: [ErrNotPlayerTurn] is never
    returned. *)
Lemma MakeAttempt_never_ErrNotPlayerTurn now gameID playerID attempt s s' :
  MakeAttempt now gameID playerID attempt s <> Returns (s', Some ErrNotPlayerTurn).
Proof. rewrite MakeAttempt_fails. discriminate. Qed.

Lemma service_GetHint_never_ErrNotPlayerTurn dict now unixNano gameID playerID
    s s' hint :
  service_GetHint dict now unixNano gameID playerID s
  <> Returns (s', (hint, Some ErrNotPlayerTurn)).
Proof. rewrite service_GetHint_fails. discriminate. Qed.

(** The answer of [MakeAttempt] does not depend on who submits. *)
Lemma MakeAttempt_any_player now gameID p q attempt s :
  MakeAttempt now gameID p attempt s = MakeAttempt now gameID q attempt s.
Proof. by rewrite !MakeAttempt_fails. Qed.

Lemma service_GetHint_any_player dict now unixNano gameID p q s :
  service_GetHint dict now unixNano gameID p s
  = service_GetHint dict now unixNano gameID q s.
Proof. by rewrite !service_GetHint_fails. Qed.


(** [ValidateSettings] returns an error for every settings value whose
    word level, player count or time limit is out of the bounds of its
    mode; the settings are never changed (the function returns only the
    error). *)
Lemma ValidateSettings_rejects st :
  out_of_bounds st -> modes.ValidateSettings st <> None.
Proof.
  unfold out_of_bounds, modes.ValidateSettings, modes.checkWordLevel.
  intros H.
  repeat match goal with
         | |- context [String.eqb ?a ?b] => destruct (String.eqb_spec a b)
         | |- context [Z.ltb ?a ?b] => destruct (Z.ltb_spec a b)
         | |- context [Z.eqb ?a ?b] => destruct (Z.eqb_spec a b)
         end; simpl; try discriminate;
    exfalso; unfold modes.ModeRoundRobin, modes.ModeRapidFire,
               modes.ModeTotalGame in *;
    destruct H as [H|[H|[[Hm H]|[[Hm H]|[Hm H]]]]]; try congruence; try lia.
Qed.

(** [ValidateSettings] accepts the settings that are within the bounds
    (round-robin also asks for a round). *)
Lemma ValidateSettings_accepts st :
  ~ out_of_bounds st ->
  (modes.Mode st = modes.ModeRoundRobin -> 1 <= modes.MaxRounds st) ->
  modes.ValidateSettings st = None.
Proof.
  unfold out_of_bounds, modes.ValidateSettings, modes.checkWordLevel.
  intros H Hr.
  repeat match goal with
         | |- context [String.eqb ?a ?b] => destruct (String.eqb_spec a b)
         | |- context [Z.ltb ?a ?b] => destruct (Z.ltb_spec a b)
         | |- context [Z.eqb ?a ?b] => destruct (Z.eqb_spec a b)
         end; simpl; try done; exfalso;
    try (specialize (Hr ltac:(done))); apply H; clear H; 
    unfold modes.ModeRoundRobin, modes.ModeRapidFire, modes.ModeTotalGame in *;
    first [ lia
          | left; lia | right; left; lia
          | right; right; left; split; [done|lia]
          | right; right; right; left; split; [done|lia]
          | right; right; right; right; split; [done|lia] ].
Qed.




(** ** float64 arithmetic *)

(** *** Shifts and rounding of the mantissa, on integers

    [digits2_pos p] is the number of binary digits of [p]. *)
Lemma digits2_pos_bounds p :
  2 ^ (Z.pos (digits2_pos p) - 1) <= Z.pos p < 2 ^ Z.pos (digits2_pos p).
Proof.
  induction p as [p IH|p IH|]; simpl digits2_pos.
  - rewrite Pos2Z.inj_succ.
    replace (Z.succ (Z.pos (digits2_pos p)) - 1) with (Z.succ (Z.pos (digits2_pos p) - 1)) by lia.
    rewrite !Z.pow_succ_r by lia. lia.
  - rewrite Pos2Z.inj_succ.
    replace (Z.succ (Z.pos (digits2_pos p)) - 1) with (Z.succ (Z.pos (digits2_pos p) - 1)) by lia.
    rewrite !Z.pow_succ_r by lia. lia.
  - simpl. lia.
Qed.

Lemma digits2_pos_unique p d :
  2 ^ (d - 1) <= Z.pos p < 2 ^ d -> Z.pos (digits2_pos p) = d.
Proof.
  intros [Hlo Hhi]. pose proof (digits2_pos_bounds p) as [Blo Bhi].
  assert (0 < d).
  { destruct d as [|d|d]; [simpl in Hhi; lia|lia|].
    rewrite Z.pow_neg_r in Hhi; lia. }
  destruct (Z.lt_trichotomy (Z.pos (digits2_pos p)) d) as [H1|[H1|H1]]; [|done|].
  - assert (2 ^ Z.pos (digits2_pos p) <= 2 ^ (d - 1)) by (apply Z.pow_le_mono_r; lia). lia.
  - assert (2 ^ d <= 2 ^ (Z.pos (digits2_pos p) - 1)) by (apply Z.pow_le_mono_r; lia). lia.
Qed.

(** One shift to the right halves the mantissa; the bit that leaves
    becomes the round bit and the former round bit joins the sticky
    bit. *)
Lemma shr_1_nonneg m r s :
  0 <= m -> shr_1 (Build_shr_record m r s) = Build_shr_record (m / 2) (Z.odd m) (r || s).
Proof.
  intros Hm. destruct m as [|p|p]; [done| |lia].
  destruct p as [p|p|]; simpl; f_equal.
  - rewrite Pos2Z.inj_xI. apply Z.div_unique with 1; lia.
  - rewrite Pos2Z.inj_xO. apply Z.div_unique with 0; lia.
Qed.

(** A shift keeps the record true of the exact value, the unit
    doubled. *)
Lemma shr_1_ok mrs X D :
  0 < D -> rec_ok mrs X D -> rec_ok (shr_1 mrs) X (2 * D)
  /\ shr_m (shr_1 mrs) = shr_m mrs / 2.
Proof.
  intros HD [Hm Hl]. destruct mrs as [m r s]. simpl in Hm, Hl.
  rewrite shr_1_nonneg by done. simpl. split; [|done]. split.
  { apply Z.div_pos; lia. }
  pose proof (Z.div_mod m 2 ltac:(lia)) as Hdm.
  pose proof (Z.mod_pos_bound m 2 ltac:(lia)) as Hb.
  rewrite Zodd_mod. set (q := m / 2) in *. 
  destruct (Z.eqb_spec (m mod 2) 1) as [E|E]; destruct r, s; simpl in *; nia.
Qed.

Lemma shr_iter_ok n : forall mrs X D,
  0 < D -> rec_ok mrs X D ->
  rec_ok (Nat.iter n shr_1 mrs) X (2 ^ Z.of_nat n * D)
  /\ shr_m (Nat.iter n shr_1 mrs) = shr_m mrs / 2 ^ Z.of_nat n.
Proof.
  induction n as [|n IH]; intros mrs X D HD Hok.
  - change (Nat.iter 0 shr_1 mrs) with mrs. change (Z.of_nat 0) with 0.
    rewrite Z.pow_0_r, Z.mul_1_l, Z.div_1_r. done.
  - rewrite Nat2Z.inj_succ, Z.pow_succ_r by lia. rewrite Nat.iter_succ.
    destruct (IH mrs X D HD Hok) as [Hok' Hm'].
    assert (HD' : 0 < 2 ^ Z.of_nat n * D) by (apply Z.mul_pos_pos; lia).
    destruct (shr_1_ok _ X _ HD' Hok') as [Hok'' Hm''].
    split.
    + by replace (2 * 2 ^ Z.of_nat n * D) with (2 * (2 ^ Z.of_nat n * D)) by lia.
    + rewrite Hm'', Hm'. rewrite Z.div_div by lia. f_equal. lia.
Qed.

Lemma iter_pos_nat {A} (f : A -> A) p : forall x,
  SpecFloat.iter_pos f p x = Nat.iter (Pos.to_nat p) f x.
Proof.
  induction p as [p IH|p IH|]; intros x; cbn [SpecFloat.iter_pos].
  - rewrite !IH. rewrite Pos2Nat.inj_xI. 
    replace (S (2 * Pos.to_nat p))%nat with (Pos.to_nat p + (Pos.to_nat p + 1))%nat by lia.
    rewrite !Nat.iter_add. done.
  - rewrite !IH. rewrite Pos2Nat.inj_xO.
    replace (2 * Pos.to_nat p)%nat with (Pos.to_nat p + Pos.to_nat p)%nat by lia.
    by rewrite Nat.iter_add.
  - done.
Qed.

Lemma shr_ok mrs e n X D :
  0 < D -> 0 <= n -> rec_ok mrs X D ->
  rec_ok (fst (shr mrs e n)) X (2 ^ n * D)
  /\ shr_m (fst (shr mrs e n)) = shr_m mrs / 2 ^ n
  /\ snd (shr mrs e n) = e + n.
Proof.
  intros HD Hn Hok. destruct n as [|p|p]; [| |lia].
  - cbn [shr fst snd]. rewrite Z.pow_0_r, Z.mul_1_l, Z.div_1_r.
    split; [done|split; [done|lia]].
  - unfold shr. simpl fst. simpl snd. rewrite iter_pos_nat.
    destruct (shr_iter_ok (Pos.to_nat p) mrs X D HD Hok) as [H1 H2].
    rewrite positive_nat_Z in *. done.
Qed.

Lemma rec_of_loc_ok l m X D :
  0 <= m -> loc_ok l m X D -> rec_ok (shr_record_of_loc m l) X D.
Proof.
  intros Hm Hl. destruct l as [|[| |]]; split; simpl; done.
Qed.

Lemma shr_m_rec_of_loc m l : shr_m (shr_record_of_loc m l) = m.
Proof. by destruct l as [|[| |]]. Qed.

(** Rounding to nearest, ties to even, leaves the mantissa at most half
    a unit from the exact value. *)
Lemma rne_ok l m X D :
  0 < D -> loc_ok l m X D ->
  m <= round_nearest_even m l <= m + 1
  /\ Z.abs (2 * (round_nearest_even m l * D - X)) <= D.
Proof.
  intros HD Hl. destruct l as [|[| |]]; simpl in *.
  - nia.
  - destruct (Z.even m); nia.
  - nia.
  - nia.
Qed.



Lemma fexp_normal z : -1074 <= z - 53 -> fexp prec emax z = z - 53.
Proof. unfold fexp, SpecFloat.emin, prec, emax. lia. Qed.

Lemma pos_digits_53 (z : Z) :
  2 ^ 52 <= z < 2 ^ 53 -> exists p, z = Z.pos p /\ Z.pos (digits2_pos p) = 53.
Proof.
  intros H. destruct z as [|p|p]; try lia. exists p. split; [done|].
  apply digits2_pos_unique. lia.
Qed.

Lemma loc_ok_ge l m X D : 0 < D -> loc_ok l m X D -> m * D <= X.
Proof. intros HD. destruct l as [|[| |]]; simpl; nia. Qed.

(** [binary_round_aux] on a mantissa of at least 53 bits, in the normal
    range and below the overflow threshold: a 53-bit mantissa at most
    half a unit (of the exponent before a carry) from the exact value,
    and not above it when the result is a power of two without a
    carry. *)
Lemma round_aux_correct s (m : positive) e l X D :
  0 < D -> loc_ok l (Z.pos m) X D ->
  let n := Z.pos (digits2_pos m) - 53 in
  0 <= n -> -1074 <= e + n -> e + n + 1 <= 971 ->
  exists m' e',
    binary_round_aux prec emax s (Z.pos m) e l = S754_finite s m' e'
    /\ Z.pos (digits2_pos m') = 53
    /\ e + n <= e' <= e + n + 1
    /\ Z.abs (2 * (Z.pos m' * 2 ^ (e' - e) * D - X)) <= 2 ^ n * D
    /\ (e' = e + n -> Z.pos m' = 2 ^ 52 -> Z.pos m' * (2 ^ n * D) <= X).
Proof.
  intros HD Hl n Hn Hlo Hhi.
  pose proof (digits2_pos_bounds m) as [Blo Bhi].
  assert (Hd : Z.pos (digits2_pos m) = 53 + n) by lia.
  rewrite Hd in Blo, Bhi.
  replace (53 + n - 1) with (52 + n) in Blo by lia.
  rewrite Z.pow_add_r in Blo, Bhi by lia.
  assert (H2n : 0 < 2 ^ n) by (apply Z.pow_pos_nonneg; lia).
  unfold binary_round_aux, shr_fexp.
  change (Zdigits2 (Z.pos m)) with (Z.pos (digits2_pos m)).
  rewrite fexp_normal by lia.
  replace (Z.pos (digits2_pos m) + e - 53 - e) with n by lia.
  destruct (shr_ok (shr_record_of_loc (Z.pos m) l) e n X D HD Hn
              (rec_of_loc_ok l (Z.pos m) X D (Pos2Z.is_nonneg m) Hl)) as (Hok & Hm & He).
  destruct (shr (shr_record_of_loc (Z.pos m) l) e n) as [mrs' e'].
  simpl in Hok, Hm, He. subst e'. rewrite shr_m_rec_of_loc in Hm.
  destruct Hok as [Hnn Hloc].
  assert (Hms : 2 ^ 52 <= shr_m mrs' < 2 ^ 53).
  { rewrite Hm. split.
    - apply Z.div_le_lower_bound; lia.
    - apply Z.div_lt_upper_bound; lia. }
  assert (HD' : 0 < 2 ^ n * D) by lia.
  destruct (rne_ok _ _ X _ HD' Hloc) as [Hr Herr].
  set (m1 := round_nearest_even (shr_m mrs') (loc_of_shr_record mrs')) in *.
  destruct (Z.ltb_spec m1 (2 ^ 53)) as [Hlt|Hge].
  - destruct (pos_digits_53 m1 ltac:(lia)) as (p & Ep & Hp).
    rewrite Ep. change (Zdigits2 (Z.pos p)) with (Z.pos (digits2_pos p)).
    rewrite Hp. rewrite fexp_normal by lia.
    replace (53 + (e + n) - 53 - (e + n)) with 0 by lia.
    cbn [shr shr_record_of_loc shr_m].
    destruct (Z.leb_spec (e + n) (emax - prec)) as [_|Hbad];
      [|unfold emax, prec in Hbad; lia].
    exists p, (e + n). split; [done|]. split; [done|]. split; [lia|].
    replace (e + n - e) with n by lia. rewrite <- Ep. split.
    + replace (m1 * 2 ^ n * D) with (m1 * (2 ^ n * D)) by lia. done.
    + intros _ E52. pose proof (loc_ok_ge _ _ _ _ HD' Hloc).
      replace m1 with (shr_m mrs') by lia. done.
  - assert (E1 : m1 = 2 ^ 53) by lia.
    rewrite E1. change (2 ^ 53) with (Z.pos (2 ^ 53)) at 1 2.
    change (Zdigits2 (Z.pos (2 ^ 53))) with 54.
    rewrite fexp_normal by lia.
    replace (54 + (e + n) - 53 - (e + n)) with 1 by lia.
    cbn [shr shr_record_of_loc shr_m SpecFloat.iter_pos shr_1 Pos.pow].
    cbn.
    destruct (Z.leb_spec (e + n + 1) (emax - prec)) as [_|Hbad];
      [|unfold emax, prec in Hbad; lia].
    eexists _, (e + n + 1). split; [reflexivity|]. split; [done|].
    split; [lia|].
    replace (e + n + 1 - e) with (n + 1) by lia.
    rewrite Z.pow_add_r by lia. rewrite E1 in Herr. split; lia.
Qed.


(** *** Real values *)
Lemma Rabs_bound x y : (Rabs x <= y)%R -> (- y <= x <= y)%R.
Proof. unfold Rabs. destruct (Rcase_abs x); lra. Qed.

Lemma bpow_pos e : (0 < bpow e)%R.
Proof. apply powerRZ_lt. lra. Qed.

Lemma bpow_add a b : bpow (a + b) = (bpow a * bpow b)%R.
Proof. apply powerRZ_add. lra. Qed.

Lemma bpow_IZR k : 0 <= k -> bpow k = IZR (2 ^ k).
Proof.
  intros Hk. unfold bpow. rewrite <- (Z2Nat.id k Hk) at 1.
  rewrite <- pow_powerRZ. rewrite <- (Z2Nat.id k Hk) at 2.
  by rewrite pow_IZR.
Qed.

Lemma bpow_le a b : a <= b -> (bpow a <= bpow b)%R.
Proof.
  intros H. replace b with (a + (b - a)) by lia.
  rewrite bpow_add, (bpow_IZR (b - a)) by lia.
  assert (1 <= IZR (2 ^ (b - a)))%R.
  { apply IZR_le. pose proof (Z.pow_pos_nonneg 2 (b - a)). lia. }
  pose proof (bpow_pos a). nra.
Qed.

Lemma bpow_succ a : bpow (a + 1) = (2 * bpow a)%R.
Proof. rewrite bpow_add. unfold bpow at 2. simpl. lra. Qed.

Lemma bpow_lt a b : a < b -> (bpow a < bpow b)%R.
Proof.
  intros H. assert (bpow (a + 1) <= bpow b)%R by (apply bpow_le; lia).
  rewrite bpow_succ in *. pose proof (bpow_pos a). lra.
Qed.

Lemma bpow_le_inv a b : (bpow a <= bpow b)%R -> a <= b.
Proof.
  intros H. destruct (Z.le_gt_cases a b) as [|Hgt]; [done|].
  apply bpow_lt in Hgt. lra.
Qed.

Lemma bpow_lt_inv a b : (bpow a < bpow b)%R -> a < b.
Proof.
  intros H. destruct (Z.lt_ge_cases a b) as [|Hge]; [done|].
  apply bpow_le in Hge. lra.
Qed.

Lemma pos_normal_bounds m e :
  Z.pos (digits2_pos m) = 53 ->
  (bpow (52 + e) <= IZR (Z.pos m) * bpow e < bpow (53 + e))%R
  /\ 2 ^ 52 <= Z.pos m < 2 ^ 53.
Proof.
  intros Hd. pose proof (digits2_pos_bounds m) as [Hlo Hhi]. rewrite Hd in *.
  change (53 - 1) with 52 in Hlo. split; [|done].
  rewrite !bpow_add. rewrite (bpow_IZR 52), (bpow_IZR 53) by lia.
  pose proof (bpow_pos e). apply IZR_le in Hlo. apply IZR_lt in Hhi.
  split; [apply Rmult_le_compat_r|apply Rmult_lt_compat_r]; lra.
Qed.

(** The same on real values. *)
Lemma round_aux_rounded (m : positive) e l X D :
  0 < D -> loc_ok l (Z.pos m) X D ->
  let n := Z.pos (digits2_pos m) - 53 in
  0 <= n -> -1074 <= e + n -> e + n + 1 <= 971 ->
  rounded (IZR X / IZR D * bpow e) (binary_round_aux prec emax false (Z.pos m) e l).
Proof.
  intros HD Hl n Hn Hlo Hhi.
  destruct (round_aux_correct false m e l X D HD Hl Hn Hlo Hhi)
    as (m' & e' & -> & Hd & He & Herr & Hfloor).
  fold n in He, Herr, Hfloor.
  split; [split; [done|lia]|].
  assert (HDr : (0 < IZR D)%R) by (by apply IZR_lt).
  remember (e' - e) as k eqn:Ek.
  assert (Hk : e' = e + k) by lia. assert (Hk0 : 0 <= k) by lia.
  assert (Hval : (F2R (S754_finite false m' e') - IZR X / IZR D * bpow e
                  = bpow e / IZR D * IZR (Z.pos m' * 2 ^ k * D - X))%R).
  { simpl. rewrite Hk at 1. rewrite bpow_add, (bpow_IZR k) by done.
    rewrite minus_IZR, !mult_IZR. field. lra. }
  assert (Hb : (Rabs (IZR (Z.pos m' * 2 ^ k * D - X)) <= IZR (2 ^ n) * IZR D / 2)%R).
  { rewrite <- abs_IZR.
    assert (Hz : (IZR (2 * Z.abs (Z.pos m' * 2 ^ k * D - X)) <= IZR (2 ^ n * D))%R)
      by (apply IZR_le; lia).
    rewrite !mult_IZR in Hz. lra. }
  assert (Hq : (Rabs (F2R (S754_finite false m' e') - IZR X / IZR D * bpow e)
                <= bpow (e + n) / 2)%R).
  { rewrite Hval. rewrite Rabs_mult. rewrite Rabs_pos_eq.
    2:{ apply Rlt_le. apply Rdiv_lt_0_compat; [apply bpow_pos|done]. }
    rewrite bpow_add, (bpow_IZR n) by done.
    pose proof (bpow_pos e) as Hpe.
    apply Rle_trans with (bpow e / IZR D * (IZR (2 ^ n) * IZR D / 2))%R.
    - apply Rmult_le_compat_l; [|done].
      apply Rlt_le. by apply Rdiv_lt_0_compat.
    - apply Req_le. field. lra. }
  split.
  - apply Rle_trans with (1 := Hq).
    assert (bpow (e + n) <= bpow e')%R by (apply bpow_le; lia). lra.
  - intros E52. destruct (Z.eq_dec e' (e + n)) as [Ee|Ee].
    + specialize (Hfloor Ee E52). rewrite Hval.
      pose proof (bpow_pos e'). 
      assert (Ekn : k = n) by lia. rewrite Ekn in *.
      assert (IZR (Z.pos m' * 2 ^ n * D - X) <= 0)%R by (apply IZR_le; lia).
      assert (0 < bpow e / IZR D)%R by (apply Rdiv_lt_0_compat; [apply bpow_pos|done]).
      assert (bpow e / IZR D * IZR (Z.pos m' * 2 ^ n * D - X) <= 0)%R by nra.
      lra.
    + assert (Ee' : e' = (e + n) + 1) by lia.
      rewrite Ee'. rewrite bpow_succ. rewrite Ee' in Hq.
      apply Rabs_bound in Hq. pose proof (bpow_pos (e + n)). lra.
Qed.


Lemma iter_xO_pow m d : Z.pos (Pos.iter xO m d) = Z.pos m * 2 ^ Z.pos d.
Proof.
  induction d as [|d IH] using Pos.peano_ind.
  - simpl. lia.
  - rewrite Pos.iter_succ, Pos2Z.inj_xO, IH, Pos2Z.inj_succ, Z.pow_succ_r; lia.
Qed.

Lemma round_aux_exact (m : positive) e :
  Z.pos (digits2_pos m) = 53 -> -1074 <= e <= 970 ->
  binary_round_aux prec emax false (Z.pos m) e loc_Exact = S754_finite false m e.
Proof.
  intros Hd He.
  destruct (round_aux_correct false m e loc_Exact (Z.pos m) 1 ltac:(lia))
    as (m' & e' & -> & Hd' & He' & Herr & _); try (rewrite Hd; lia).
  { simpl. lia. }
  rewrite Hd in He', Herr. change (53 - 53) with 0 in *.
  pose proof (digits2_pos_bounds m) as [_ Bm].
  pose proof (digits2_pos_bounds m') as [Bm' _].
  rewrite Hd in Bm. rewrite Hd' in Bm'. change (53 - 1) with 52 in Bm'.
  destruct (Z.eq_dec e' e) as [->|Hne].
  - rewrite Z.sub_diag in Herr. change (2 ^ 0) with 1 in Herr.
    f_equal. lia.
  - replace (e' - e) with 1 in Herr by lia. change (2 ^ 1) with 2 in Herr.
    change (2 ^ 0) with 1 in Herr. lia.
Qed.

(** An integer of at most 53 bits scaled by a power of two is a float. *)
Lemma normalize_exact z e :
  0 < z < 2 ^ 53 -> -1022 <= e <= 970 ->
  pos_normal (binary_normalize prec emax z e false)
  /\ F2R (binary_normalize prec emax z e false) = (IZR z * bpow e)%R.
Proof.
  intros Hz He. destruct z as [|p|p]; try lia.
  unfold binary_normalize, binary_round.
  pose proof (digits2_pos_bounds p) as [Blo Bhi].
  remember (Z.pos (digits2_pos p)) as d eqn:Ed.
  assert (Hd : 1 <= d <= 53).
  { split; [lia|].
    destruct (Z.le_gt_cases d 53) as [|Hgt]; [done|].
    assert (2 ^ 53 <= 2 ^ (d - 1)) by (apply Z.pow_le_mono_r; lia). lia. }
  rewrite fexp_normal by lia.
  unfold shl_align.
  destruct (d + e - 53 - e) as [|q|q] eqn:Eq; try lia.
  - assert (d = 53) by lia.
    rewrite round_aux_exact by lia.
    split; [split; lia|done].
  - assert (Hq : Z.pos q = 53 - d) by lia.
    assert (Hdig : Z.pos (digits2_pos (Pos.iter xO p q)) = 53).
    { apply digits2_pos_unique. rewrite iter_xO_pow, Hq.
      change (53 - 1) with 52.
      assert (E52 : 2 ^ 52 = 2 ^ (d - 1) * 2 ^ (53 - d))
        by (rewrite <- Z.pow_add_r by lia; f_equal; lia).
      assert (E53 : 2 ^ 53 = 2 ^ d * 2 ^ (53 - d))
        by (rewrite <- Z.pow_add_r by lia; f_equal; lia).
      rewrite E52, E53.
      assert (0 < 2 ^ (53 - d)) by (apply Z.pow_pos_nonneg; lia). nia. }
    rewrite round_aux_exact by (done || lia).
    split; [split; [done|lia]|].
    simpl. rewrite iter_xO_pow, Hq, mult_IZR.
    rewrite <- bpow_IZR by lia.
    replace e with ((53 - d) + (d + e - 53)) at 2 by lia.
    rewrite bpow_add. lra.
Qed.

(** *** The operations

    The product, the sum and the quotient of two positive normal doubles
    are roundings of the exact ones, away from overflow and underflow. *)
Lemma fmul_rounded mx ex my ey :
  Z.pos (digits2_pos mx) = 53 -> Z.pos (digits2_pos my) = 53 ->
  -1126 <= ex + ey <= 917 ->
  rounded (F2R (S754_finite false mx ex) * F2R (S754_finite false my ey))
          (fmul (S754_finite false mx ex) (S754_finite false my ey)).
Proof.
  intros Hx Hy He. unfold fmul, SFmul. cbn [xorb].
  destruct (pos_normal_bounds mx ex Hx) as [_ [Lx Ux]].
  destruct (pos_normal_bounds my ey Hy) as [_ [Ly Uy]].
  pose proof (digits2_pos_bounds (mx * my)) as [Blo Bhi].
  rewrite Pos2Z.inj_mul in Blo, Bhi.
  remember (Z.pos (digits2_pos (mx * my))) as d eqn:Ed.
  assert (Hd : 105 <= d <= 106).
  { split.
    - destruct (Z.le_gt_cases 105 d) as [|Hlt]; [done|].
      assert (2 ^ d <= 2 ^ 104) by (apply Z.pow_le_mono_r; lia).
      assert (2 ^ 104 = 2 ^ 52 * 2 ^ 52) by done. nia.
    - destruct (Z.le_gt_cases d 106) as [|Hgt]; [done|].
      assert (2 ^ 106 <= 2 ^ (d - 1)) by (apply Z.pow_le_mono_r; lia).
      assert (2 ^ 106 = 2 ^ 53 * 2 ^ 53) by done. nia. }
  replace (F2R (S754_finite false mx ex) * F2R (S754_finite false my ey))%R
    with (IZR (Z.pos (mx * my)) / IZR 1 * bpow (ex + ey))%R.
  2:{ simpl. rewrite Pos2Z.inj_mul, mult_IZR, bpow_add. field. }
  apply round_aux_rounded; rewrite <- ?Ed; try lia. simpl. lia.
Qed.

Lemma fadd_rounded mx ex my ey :
  Z.pos (digits2_pos mx) = 53 -> Z.pos (digits2_pos my) = 53 ->
  -1074 <= ex <= 900 -> -1074 <= ey <= 900 -> Z.abs (ex - ey) <= 64 ->
  rounded (F2R (S754_finite false mx ex) + F2R (S754_finite false my ey))
          (fadd (S754_finite false mx ex) (S754_finite false my ey)).
Proof.
  intros Hx Hy Hex Hey Hclose. unfold fadd, SFadd. cbn [cond_Zopp].
  destruct (pos_normal_bounds mx ex Hx) as [_ [Lx Ux]].
  destruct (pos_normal_bounds my ey Hy) as [_ [Ly Uy]].
  set (ez := Z.min ex ey).
  assert (Hax : exists ax, fst (shl_align mx ex ez) = ax
                           /\ Z.pos ax = Z.pos mx * 2 ^ (ex - ez)).
  { unfold shl_align. destruct (ez - ex) as [|q|q] eqn:Eq; try (unfold ez in Eq; lia).
    - exists mx. split; [done|]. replace (ex - ez) with 0 by lia. simpl. lia.
    - exists (Pos.iter xO mx q). split; [done|]. rewrite iter_xO_pow.
      by replace (Z.pos q) with (ex - ez) by lia. }
  assert (Hay : exists ay, fst (shl_align my ey ez) = ay
                           /\ Z.pos ay = Z.pos my * 2 ^ (ey - ez)).
  { unfold shl_align. destruct (ez - ey) as [|q|q] eqn:Eq; try (unfold ez in Eq; lia).
    - exists my. split; [done|]. replace (ey - ez) with 0 by lia. simpl. lia.
    - exists (Pos.iter xO my q). split; [done|]. rewrite iter_xO_pow.
      by replace (Z.pos q) with (ey - ez) by lia. }
  destruct Hax as (ax & -> & Eax). destruct Hay as (ay & -> & Eay).
  change (Z.pos ax + Z.pos ay) with (Z.pos (ax + ay)).
  unfold binary_normalize, binary_round.
  pose proof (digits2_pos_bounds (ax + ay)) as [Blo Bhi].
  rewrite Pos2Z.inj_add in Blo, Bhi.
  remember (Z.pos (digits2_pos (ax + ay))) as d eqn:Ed.
  assert (P1 : 1 <= 2 ^ (ex - ez)) by (pose proof (Z.pow_pos_nonneg 2 (ex - ez)); unfold ez in *; lia).
  assert (P2 : 1 <= 2 ^ (ey - ez)) by (pose proof (Z.pow_pos_nonneg 2 (ey - ez)); unfold ez in *; lia).
  assert (Q1 : 2 ^ (ex - ez) <= 2 ^ 64) by (apply Z.pow_le_mono_r; unfold ez; lia).
  assert (Q2 : 2 ^ (ey - ez) <= 2 ^ 64) by (apply Z.pow_le_mono_r; unfold ez; lia).
  assert (Hd : 53 <= d <= 119).
  { split.
    - destruct (Z.le_gt_cases 53 d) as [|Hlt]; [done|].
      assert (2 ^ d <= 2 ^ 52) by (apply Z.pow_le_mono_r; lia). nia.
    - destruct (Z.le_gt_cases d 119) as [|Hgt]; [done|].
      assert (2 ^ 119 <= 2 ^ (d - 1)) by (apply Z.pow_le_mono_r; lia).
      assert (2 ^ 119 = 2 ^ 53 * 2 ^ 64 * 4) by done. nia. }
  rewrite fexp_normal by (unfold ez; lia).
  unfold shl_align.
  replace (F2R (S754_finite false mx ex) + F2R (S754_finite false my ey))%R
    with (IZR (Z.pos (ax + ay)) / IZR 1 * bpow ez)%R.
  2:{ simpl. rewrite Pos2Z.inj_add, plus_IZR, Eax, Eay, !mult_IZR.
      rewrite <- !bpow_IZR by (unfold ez; lia).
      replace ex with ((ex - ez) + ez) at 2 by lia.
      replace ey with ((ey - ez) + ez) at 2 by lia.
      rewrite !bpow_add. field. }
  (* 53 bits or more: nothing to align *)
  destruct (d + ez - 53 - ez) as [|q|q] eqn:Eq; try lia;
    (apply round_aux_rounded; rewrite <- ?Ed; try (unfold ez; lia); simpl; lia).
Qed.



(** The location [SFdiv] computes from the remainder of the division. *)
Lemma new_location_ok d r q :
  0 < d -> 0 <= r < d -> loc_ok (new_location d r) q (d * q + r) d.
Proof.
  intros Hd Hr. unfold new_location, new_location_even, new_location_odd.
  destruct (Z.even d) eqn:Ev.
  - destruct (Z.eqb_spec r 0) as [->|Hr0]; [simpl; lia|].
    destruct (Z.compare_spec (2 * r) d); simpl; lia.
  - assert (Hodd : Z.odd d = true) by (by rewrite <- Z.negb_even, Ev).
    apply Z.odd_spec in Hodd as [k Hk].
    destruct (Z.eqb_spec r 0) as [->|Hr0]; [simpl; lia|].
    destruct (Z.compare_spec (2 * r + 1) d); simpl; lia.
Qed.

Lemma fdiv_rounded mx ex my ey :
  Z.pos (digits2_pos mx) = 53 -> Z.pos (digits2_pos my) = 53 ->
  -1021 <= ex - ey <= 1020 ->
  rounded (F2R (S754_finite false mx ex) / F2R (S754_finite false my ey))
          (fdiv (S754_finite false mx ex) (S754_finite false my ey)).
Proof.
  intros Hx Hy He. unfold fdiv, SFdiv, SFdiv_core_binary. cbn [xorb].
  destruct (pos_normal_bounds mx ex Hx) as [_ [Lx Ux]].
  destruct (pos_normal_bounds my ey Hy) as [_ [Ly Uy]].
  change (Zdigits2 (Z.pos mx)) with (Z.pos (digits2_pos mx)).
  change (Zdigits2 (Z.pos my)) with (Z.pos (digits2_pos my)).
  rewrite Hx, Hy. rewrite fexp_normal by lia.
  replace (Z.min (53 + ex - (53 + ey) - 53) (ex - ey)) with (ex - ey - 53) by lia.
  replace (ex - ey - (ex - ey - 53)) with 53 by lia.
  rewrite Z.shiftl_mul_pow2 by lia.
  pose proof (Z_div_mod (Z.pos mx * 2 ^ 53) (Z.pos my) ltac:(lia)) as Hdm.
  destruct (Z.div_eucl (Z.pos mx * 2 ^ 53) (Z.pos my)) as [q r].
  destruct Hdm as [Hdm Hr].
  assert (Hq : 2 ^ 52 <= q < 2 ^ 54).
  { assert (2 ^ 105 = 2 ^ 52 * 2 ^ 53) by done.
    assert (2 ^ 106 = 2 ^ 52 * 2 ^ 54) by done.
    split; nia. }
  destruct q as [|q|q]; try lia.
  pose proof (digits2_pos_bounds q) as [Blo Bhi].
  remember (Z.pos (digits2_pos q)) as d eqn:Ed.
  assert (Hd : 53 <= d <= 54).
  { split.
    - destruct (Z.le_gt_cases 53 d) as [|Hlt]; [done|].
      assert (2 ^ d <= 2 ^ 52) by (apply Z.pow_le_mono_r; lia). lia.
    - destruct (Z.le_gt_cases d 54) as [|Hgt]; [done|].
      assert (2 ^ 54 <= 2 ^ (d - 1)) by (apply Z.pow_le_mono_r; lia). lia. }
  replace (F2R (S754_finite false mx ex) / F2R (S754_finite false my ey))%R
    with (IZR (Z.pos mx * 2 ^ 53) / IZR (Z.pos my) * bpow (ex - ey - 53))%R.
  2:{ simpl. rewrite mult_IZR, <- bpow_IZR by lia.
      replace ex with ((ex - ey - 53) + 53 + ey) at 2 by lia.
      rewrite !bpow_add.
      pose proof (bpow_pos ey). pose proof (bpow_pos (ex - ey - 53)).
      assert (0 < IZR (Z.pos my))%R by (apply IZR_lt; lia).
      field. split; lra. }
  apply round_aux_rounded; rewrite <- ?Ed; try lia.
  rewrite Hdm. by apply new_location_ok.
Qed.

(** Order on positive normal floats. *)
Lemma F2R_lt_exp m1 e1 m2 e2 :
  Z.pos (digits2_pos m1) = 53 -> Z.pos (digits2_pos m2) = 53 -> e1 < e2 ->
  (F2R (S754_finite false m1 e1) < F2R (S754_finite false m2 e2))%R.
Proof.
  intros H1 H2 He. simpl.
  destruct (pos_normal_bounds m1 e1 H1) as [[_ U1] _].
  destruct (pos_normal_bounds m2 e2 H2) as [[L2 _] _].
  assert (bpow (53 + e1) <= bpow (52 + e2))%R by (apply bpow_le; lia). lra.
Qed.

Lemma F2R_le_same m1 m2 e :
  (F2R (S754_finite false m1 e) <= F2R (S754_finite false m2 e))%R
  <-> Z.pos m1 <= Z.pos m2.
Proof.
  simpl. pose proof (bpow_pos e). split.
  - intros Hle. apply le_IZR. nra.
  - intros Hle. apply IZR_le in Hle. nra.
Qed.

Lemma F2R_lt_same m1 m2 e :
  (F2R (S754_finite false m1 e) < F2R (S754_finite false m2 e))%R
  <-> Z.pos m1 < Z.pos m2.
Proof.
  simpl. pose proof (bpow_pos e). split.
  - intros Hle. apply lt_IZR. nra.
  - intros Hle. apply IZR_lt in Hle. nra.
Qed.

Lemma SFleb_normal x y :
  pos_normal x -> pos_normal y -> SFleb x y = true <-> (F2R x <= F2R y)%R.
Proof.
  destruct x as [| | |[|] m1 e1], y as [| | |[|] m2 e2]; try done.
  intros [H1 _] [H2 _]. unfold SFleb, SFcompare.
  destruct (Z.compare_spec e1 e2) as [->|Hlt|Hgt].
  - rewrite F2R_le_same. change (Pos.compare_cont Eq m1 m2) with (m1 ?= m2)%positive.
    destruct (Pos.compare_spec m1 m2); split; try done; lia.
  - split; [|done]. intros _. apply Rlt_le. by apply F2R_lt_exp.
  - split; [done|]. intros Hle.
    pose proof (F2R_lt_exp m2 e2 m1 e1 H2 H1 Hgt). lra.
Qed.

Lemma SFltb_normal x y :
  pos_normal x -> pos_normal y -> SFltb x y = true <-> (F2R x < F2R y)%R.
Proof.
  destruct x as [| | |[|] m1 e1], y as [| | |[|] m2 e2]; try done.
  intros [H1 _] [H2 _]. unfold SFltb, SFcompare.
  destruct (Z.compare_spec e1 e2) as [->|Hlt|Hgt].
  - rewrite F2R_lt_same. change (Pos.compare_cont Eq m1 m2) with (m1 ?= m2)%positive.
    destruct (Pos.compare_spec m1 m2); split; try done; lia.
  - split; [|done]. intros _. by apply F2R_lt_exp.
  - split; [done|]. intros Hle.
    pose proof (F2R_lt_exp m2 e2 m1 e1 H2 H1 Hgt). lra.
Qed.

(** Rounding to nearest does not cross a float. *)
Lemma rounded_ge x f g :
  rounded x f -> pos_normal g -> (F2R g <= x)%R -> (F2R g <= F2R f)%R.
Proof.
  intros [Hf Hr] Hg Hle.
  destruct f as [| | |[|] mf ef], g as [| | |[|] mg eg]; try done.
  destruct Hr as [Herr _]. destruct Hf as [Hdf _]. destruct Hg as [Hdg _].
  destruct (Rle_lt_dec (F2R (S754_finite false mg eg)) (F2R (S754_finite false mf ef)))
    as [|Hlt]; [done|exfalso].
  apply Rabs_bound in Herr. pose proof (bpow_pos ef) as Hpf.
  assert (Hgap : (F2R (S754_finite false mf ef) + bpow ef
                  <= F2R (S754_finite false mg eg))%R).
  { destruct (Z.lt_trichotomy ef eg) as [Hc|[->|Hc]].
    - destruct (pos_normal_bounds mf ef Hdf) as [[_ U1] _].
      destruct (pos_normal_bounds mg eg Hdg) as [[L2 _] _].
      assert (bpow (53 + ef) <= bpow (52 + eg))%R by (apply bpow_le; lia).
      assert (Hup : (IZR (Z.pos mf) + 1 <= IZR (2 ^ 53))%R).
      { rewrite <- plus_IZR. apply IZR_le.
        destruct (pos_normal_bounds mf ef Hdf) as [_ ?]. lia. }
      rewrite <- bpow_IZR in Hup by lia.
      rewrite (bpow_add 53 ef) in *. simpl in *. nra.
    - apply F2R_lt_same in Hlt. simpl.
      assert (IZR (Z.pos mf) + 1 <= IZR (Z.pos mg))%R
        by (rewrite <- plus_IZR; apply IZR_le; lia).
      pose proof (bpow_pos eg). nra.
    - pose proof (F2R_lt_exp mg eg mf ef Hdg Hdf Hc). lra. }
  lra.
Qed.

Lemma rounded_le x f g :
  rounded x f -> pos_normal g -> (x <= F2R g)%R -> (F2R f <= F2R g)%R.
Proof.
  intros [Hf Hr] Hg Hle.
  destruct f as [| | |[|] mf ef], g as [| | |[|] mg eg]; try done.
  destruct Hr as [Herr Hquart]. destruct Hf as [Hdf _]. destruct Hg as [Hdg _].
  destruct (Rle_lt_dec (F2R (S754_finite false mf ef)) (F2R (S754_finite false mg eg)))
    as [|Hlt]; [done|exfalso].
  apply Rabs_bound in Herr. pose proof (bpow_pos ef) as Hpf.
  destruct (pos_normal_bounds mf ef Hdf) as [[Lf Uf] [Lzf Uzf]].
  destruct (pos_normal_bounds mg eg Hdg) as [[Lg Ug] [Lzg Uzg]].
  destruct (Z.lt_trichotomy eg ef) as [Hc|[->|Hc]].
  - (* the float below f is at least g *)
    destruct (Z.eq_dec (Z.pos mf) (2 ^ 52)) as [E52|N52].
    + specialize (Hquart E52).
      assert (Hg1 : (F2R (S754_finite false mg eg)
                     <= F2R (S754_finite false mf ef) - bpow ef / 2)%R).
      { simpl. rewrite E52.
        assert (Hup : (IZR (Z.pos mg) + 1 <= IZR (2 ^ 53))%R)
          by (rewrite <- plus_IZR; apply IZR_le; lia).
        assert (Hee : (bpow eg <= bpow (ef - 1))%R) by (apply bpow_le; lia).
        replace ef with ((ef - 1) + 1) at 1 2 by lia.
        rewrite bpow_succ.
        pose proof (bpow_pos eg). pose proof (bpow_pos (ef - 1)).
        assert (IZR (2 ^ 53) = 2 * IZR (2 ^ 52))%R
          by (rewrite <- (mult_IZR 2); f_equal).
        assert (0 < IZR (Z.pos mg))%R by (apply IZR_lt; lia).
        assert (IZR (Z.pos mg) * bpow eg <= IZR (Z.pos mg) * bpow (ef - 1))%R by nra.
        assert (IZR (Z.pos mg) * bpow (ef - 1)
                <= (IZR (2 ^ 53) - 1) * bpow (ef - 1))%R by nra.
        lra. }
      lra.
    + assert (Hg1 : (F2R (S754_finite false mg eg)
                     <= F2R (S754_finite false mf ef) - bpow ef)%R).
      { simpl. 
        assert (bpow (53 + eg) <= bpow (52 + ef))%R by (apply bpow_le; lia).
        assert (Hmf : (IZR (2 ^ 52) + 1 <= IZR (Z.pos mf))%R)
          by (rewrite <- plus_IZR; apply IZR_le; lia).
        rewrite (bpow_add 52 ef) in *. rewrite (bpow_IZR 52) in * by lia.
        simpl in Ug. nra. }
      lra.
  - apply F2R_lt_same in Hlt.
    destruct (Z.eq_dec (Z.pos mf) (2 ^ 52)) as [E52|N52]; [lia|].
    assert (Hg1 : (F2R (S754_finite false mg ef)
                   <= F2R (S754_finite false mf ef) - bpow ef)%R).
    { simpl. assert (IZR (Z.pos mg) + 1 <= IZR (Z.pos mf))%R
        by (rewrite <- plus_IZR; apply IZR_le; lia). nra. }
    lra.
  - pose proof (F2R_lt_exp mf ef mg eg Hdf Hdg Hc). lra.
Qed.

(** The relative error of a rounding. *)
Lemma rounded_rel x f :
  rounded x f -> (Rabs (F2R f - x) <= F2R f * bpow (-53))%R /\ (0 < F2R f)%R.
Proof.
  intros [Hf Hr]. destruct f as [| | |[|] mf ef]; try done.
  destruct Hr as [Herr _]. destruct Hf as [Hdf _].
  destruct (pos_normal_bounds mf ef Hdf) as [[Lf Uf] _].
  replace (52 + ef) with ((-53) + (105 + ef)) in Lf by lia.
  pose proof (bpow_pos ef). pose proof (bpow_pos (105 + ef)).
  assert (E : (bpow ef / 2 = bpow (-53) * bpow (52 + ef))%R).
  { rewrite <- bpow_add. replace (-53 + (52 + ef)) with (ef - 1) by lia.
    replace ef with ((ef - 1) + 1) at 1 by lia. rewrite bpow_succ. lra. }
  pose proof (bpow_pos (-53)). pose proof (bpow_pos (52 + ef)).
  destruct (pos_normal_bounds mf ef Hdf) as [[Lf' _] _].
  split; [|simpl in *; lra].
  apply Rle_trans with (1 := Herr). rewrite E. simpl in *. nra.
Qed.


(** The same with the range given on the values. *)
Lemma exp_bounds f a b :
  pos_normal f -> (bpow a <= F2R f < bpow b)%R ->
  exists m e, f = S754_finite false m e /\ Z.pos (digits2_pos m) = 53
              /\ a - 52 <= e <= b - 53.
Proof.
  destruct f as [| | |[|] m e]; try done. intros [Hd _] [Hlo Hhi].
  exists m, e. split; [done|]. split; [done|].
  destruct (pos_normal_bounds m e Hd) as [[L U] _]. simpl in Hlo, Hhi.
  assert (H1 : (bpow (52 + e) < bpow b)%R) by lra.
  assert (H2 : (bpow a < bpow (53 + e))%R) by lra.
  apply bpow_lt_inv in H1, H2. lia.
Qed.

Lemma fmul_val x y :
  pos_normal x -> pos_normal y ->
  (bpow (-500) <= F2R x < bpow 500)%R -> (bpow (-500) <= F2R y < bpow 500)%R ->
  rounded (F2R x * F2R y) (fmul x y).
Proof.
  intros Hx Hy Bx By.
  destruct (exp_bounds x _ _ Hx Bx) as (mx & ex & -> & Dx & Ex).
  destruct (exp_bounds y _ _ Hy By) as (my & ey & -> & Dy & Ey).
  apply fmul_rounded; lia.
Qed.

Lemma fdiv_val x y :
  pos_normal x -> pos_normal y ->
  (bpow (-500) <= F2R x < bpow 500)%R -> (bpow (-500) <= F2R y < bpow 500)%R ->
  rounded (F2R x / F2R y) (fdiv x y).
Proof.
  intros Hx Hy Bx By.
  destruct (exp_bounds x _ _ Hx Bx) as (mx & ex & -> & Dx & Ex).
  destruct (exp_bounds y _ _ Hy By) as (my & ey & -> & Dy & Ey).
  apply fdiv_rounded; lia.
Qed.

Lemma fadd_val x y :
  pos_normal x -> pos_normal y ->
  (bpow (-10) <= F2R x < bpow 50)%R -> (bpow (-10) <= F2R y < bpow 50)%R ->
  rounded (F2R x + F2R y) (fadd x y).
Proof.
  intros Hx Hy Bx By.
  destruct (exp_bounds x _ _ Hx Bx) as (mx & ex & -> & Dx & Ex).
  destruct (exp_bounds y _ _ Hy By) as (my & ey & -> & Dy & Ey).
  apply fadd_rounded; lia.
Qed.

(** The conversion of an integer of at most 53 bits is exact. *)
Lemma float_of_int_exact z :
  0 < z < 2 ^ 53 ->
  pos_normal (float_of_int z) /\ F2R (float_of_int z) = IZR z.
Proof.
  intros Hz. destruct (normalize_exact z 0 Hz ltac:(lia)) as [H1 H2].
  split; [done|]. unfold float_of_int. rewrite H2. unfold bpow. simpl. lra.
Qed.

(** The integer part of a positive float. *)
Lemma ftrunc_floor f z :
  pos_normal f -> (IZR z <= F2R f < IZR z + 1)%R -> ftrunc f = Some z.
Proof.
  destruct f as [| | |[|] m e]; try done. intros _ [Hlo Hhi]. simpl in *.
  f_equal. destruct (Z.leb_spec 0 e) as [He|He].
  - rewrite bpow_IZR, <- mult_IZR in * by done.
    apply le_IZR in Hlo. rewrite <- plus_IZR in Hhi. apply lt_IZR in Hhi.
    lia.
  - assert (Hp : 0 < 2 ^ (- e)) by (apply Z.pow_pos_nonneg; lia).
    assert (Hb : (bpow e * IZR (2 ^ (- e)) = 1)%R).
    { rewrite <- bpow_IZR by lia. rewrite <- bpow_add.
      replace (e + - e) with 0 by lia. done. }
    assert (Hpr : (0 < IZR (2 ^ (- e)))%R) by (by apply IZR_lt).
    assert (H1 : (IZR (z * 2 ^ (- e)) <= IZR (Z.pos m))%R).
    { rewrite mult_IZR.
      apply Rmult_le_compat_r with (r := IZR (2 ^ (- e))) in Hlo; [|lra].
      rewrite Rmult_assoc, Hb in Hlo. lra. }
    assert (H2 : (IZR (Z.pos m) < IZR ((z + 1) * 2 ^ (- e)))%R).
    { rewrite mult_IZR, plus_IZR.
      apply Rmult_lt_compat_r with (r := IZR (2 ^ (- e))) in Hhi; [|lra].
      rewrite Rmult_assoc, Hb in Hhi. lra. }
    apply le_IZR in H1. apply lt_IZR in H2.
    symmetry. apply Z.div_unique with (Z.pos m - z * 2 ^ (- e)); lia.
Qed.

Lemma int_of_float_floor f z :
  pos_normal f -> (IZR z <= F2R f < IZR z + 1)%R -> 0 <= z < 2 ^ 62 ->
  int_of_float f = z.
Proof.
  intros Hf Hz Hr. unfold int_of_float. rewrite (ftrunc_floor f z Hf Hz).
  unfold int_min, int_max.
  destruct (Z.leb_spec (- 2 ^ 63) z), (Z.leb_spec z (2 ^ 63 - 1)); simpl; lia.
Qed.

(** [int(math.Round(x))] is the integer [z] with [z <= x + 1/2 < z + 1]. *)
Lemma int_of_Round f z :
  pos_normal f -> (IZR z <= F2R f + / 2 < IZR z + 1)%R -> 0 <= z < 2 ^ 62 ->
  int_of_float (Round f) = z.
Proof.
  destruct f as [| | |[|] m e] eqn:Ef; try done. intros Hf [Hlo Hhi] Hz.
  destruct Hf as [Hd He]. destruct (pos_normal_bounds m e Hd) as [_ [Lm Um]].
  unfold Round. destruct (Z.leb_spec 0 e) as [He0|He0].
  - simpl in Hlo, Hhi. rewrite bpow_IZR, <- mult_IZR in * by done.
    assert (z = Z.pos m * 2 ^ e).
    { assert (H1 : (IZR (2 * z) <= IZR (2 * (Z.pos m * 2 ^ e) + 1))%R)
        by (rewrite plus_IZR, !mult_IZR; rewrite mult_IZR in Hlo; lra).
      assert (H2 : (IZR (2 * (Z.pos m * 2 ^ e) + 1) < IZR (2 * z + 2))%R)
        by (rewrite !plus_IZR, !mult_IZR; rewrite mult_IZR in Hhi; lra).
      apply le_IZR in H1. apply lt_IZR in H2. lia. }
    apply int_of_float_floor; [done| |done].
    simpl. rewrite bpow_IZR, <- mult_IZR by done. subst z. lra.
  - set (k := - e) in *. assert (Hk : 0 < k) by (unfold k; lia).
    assert (Hp : 0 < 2 ^ k) by (apply Z.pow_pos_nonneg; lia).
    assert (Hpk : 2 ^ (k + 1) = 2 * 2 ^ k) by (rewrite Z.pow_add_r by lia; lia).
    assert (Hb : (bpow e * IZR (2 ^ k) = 1)%R).
    { rewrite <- bpow_IZR by lia. rewrite <- bpow_add.
      replace (e + k) with 0 by (unfold k; lia). done. }
    assert (Hpr : (0 < IZR (2 ^ k))%R) by (by apply IZR_lt).
    pose proof (bpow_pos e) as Hbe.
    simpl in Hlo, Hhi.
    assert (H1 : (IZR (z * (2 * 2 ^ k)) <= IZR (2 * Z.pos m + 2 ^ k))%R).
    { rewrite plus_IZR, !mult_IZR.
      apply Rmult_le_compat_r with (r := IZR (2 ^ k)) in Hlo; [|lra].
      rewrite Rmult_plus_distr_r, Rmult_assoc, Hb in Hlo. lra. }
    assert (H2 : (IZR (2 * Z.pos m + 2 ^ k) < IZR ((z + 1) * (2 * 2 ^ k)))%R).
    { rewrite !plus_IZR, !mult_IZR, plus_IZR.
      apply Rmult_lt_compat_r with (r := IZR (2 ^ k)) in Hhi; [|lra].
      rewrite Rmult_plus_distr_r, Rmult_assoc, Hb in Hhi. lra. }
    apply le_IZR in H1. apply lt_IZR in H2.
    assert (En : (2 * Z.pos m + 2 ^ k) / 2 ^ (k + 1) = z).
    { rewrite Hpk. symmetry.
      apply Z.div_unique with (2 * Z.pos m + 2 ^ k - z * (2 * 2 ^ k)); lia. }
    rewrite En. destruct (Z.eq_dec z 0) as [->|Hz0]; [done|].
    assert (Hz53 : 0 < z < 2 ^ 53).
    { split; [lia|]. 
      assert (z * (2 * 2 ^ k) < 2 ^ 53 * (2 * 2 ^ k)); [|nia].
      assert (2 <= 2 ^ k) by (change 2 with (2 ^ 1) at 1; apply Z.pow_le_mono_r; lia).
      assert (2 * Z.pos m + 2 ^ k < 2 ^ 53 * (2 * 2 ^ k)) by nia. lia. }
    destruct (normalize_exact z 0 Hz53 ltac:(lia)) as [N1 N2].
    apply int_of_float_floor; [done| |done].
    rewrite N2. unfold bpow. simpl. lra.
Qed.


(** ** Scores *)


(** The constants of the source. *)
Lemma bpow_neg k : 0 <= k -> bpow (- k) = (/ IZR (2 ^ k))%R.
Proof.
  intros Hk. rewrite <- bpow_IZR by done.
  pose proof (bpow_pos k). pose proof (bpow_pos (- k)).
  assert (E : (bpow (- k) * bpow k = 1)%R).
  { rewrite <- bpow_add. replace (- k + k) with 0 by lia. done. }
  apply Rmult_eq_reg_r with (bpow k); [|lra]. rewrite E. field. lra.
Qed.

(** Turns [bpow (-k)], for a literal [k], into the inverse of the number
    [2 ^ k]. *)
Ltac bpow_neg_const k :=
  change (bpow (Z.neg k)) with (bpow (- Z.pos k)) in *;
  rewrite (bpow_neg (Z.pos k)) in * by lia;
  let v := eval vm_compute in (2 ^ Z.pos k) in
  change (2 ^ Z.pos k) with v in *.

(** The value of a constant given by its mantissa and its exponent [-k]. *)
Ltac lit_value f k :=
  split; [split; [reflexivity|lia]|];
  unfold f, F2R; bpow_neg_const k; lra.

Lemma IZR_in_range z a b :
  0 < z < 2 ^ 53 -> a <= 0 -> 53 <= b -> (bpow a <= IZR z < bpow b)%R.
Proof.
  intros Hz Ha Hb.
  assert (bpow a <= bpow 0)%R by (by apply bpow_le).
  assert (bpow 53 <= bpow b)%R by (by apply bpow_le).
  rewrite (bpow_IZR 53) in * by lia. change (bpow 0) with 1%R in *.
  assert (1 <= IZR z)%R by (apply IZR_le; lia).
  assert (IZR z < IZR (2 ^ 53))%R by (apply IZR_lt; lia). lra.
Qed.

Lemma lit_1_5_eq : float_lit 15 10 = lit_1_5.
Proof. vm_compute. reflexivity. Qed.
Lemma lit_1_3_eq : float_lit 13 10 = lit_1_3.
Proof. vm_compute. reflexivity. Qed.
Lemma lit_0_9_eq : float_lit 9 10 = lit_0_9.
Proof. vm_compute. reflexivity. Qed.

Lemma lit_1_5_val : pos_normal lit_1_5 /\ (F2R lit_1_5 = 3 / 2)%R.
Proof.
  lit_value lit_1_5 52%positive.
Qed.

Lemma lit_1_3_val :
  pos_normal lit_1_3
  /\ (F2R lit_1_3 = 5854679515581645 / 4503599627370496)%R.
Proof.
  lit_value lit_1_3 52%positive.
Qed.

Lemma lit_0_9_val :
  pos_normal lit_0_9
  /\ (F2R lit_0_9 = 8106479329266893 / 9007199254740992)%R.
Proof.
  lit_value lit_0_9 53%positive.
Qed.

Lemma const_in_range f v :
  F2R f = v -> (/ 1024 <= v < 1024)%R -> (bpow (-500) <= F2R f < bpow 500)%R.
Proof.
  intros -> Hv.
  assert (bpow (-500) <= bpow (-10))%R by (by apply bpow_le).
  assert (bpow 10 <= bpow 500)%R by (by apply bpow_le).
  bpow_neg_const 10%positive. rewrite (bpow_IZR 10) in * by lia.
  change (2 ^ 10) with 1024 in *. lra.
Qed.

(** The speed bonus: 1.5 times a base score is computed exactly. *)
Lemma speed_bonus_exact c :
  0 < c <= 2 ^ 44 ->
  int_of_float (fmul (float_of_int (c * 100)) (float_lit 15 10)) = c * 150.
Proof.
  intros Hc. rewrite lit_1_5_eq.
  destruct (float_of_int_exact (c * 100) ltac:(lia)) as [Nx Vx].
  destruct lit_1_5_val as [Ny Vy].
  destruct (float_of_int_exact (c * 150) ltac:(lia)) as [Ng Vg].
  assert (Hr : rounded (F2R (float_of_int (c * 100)) * F2R lit_1_5)
                       (fmul (float_of_int (c * 100)) lit_1_5)).
  { apply fmul_val; try done.
    - rewrite Vx. apply IZR_in_range; lia.
    - apply (const_in_range _ _ Vy). lra. }
  assert (Ex : (F2R (float_of_int (c * 100)) * F2R lit_1_5 = IZR (c * 150))%R).
  { rewrite Vx, Vy, !mult_IZR. lra. }
  rewrite Ex in Hr.
  pose proof (rounded_ge _ _ _ Hr Ng ltac:(rewrite Vg; lra)) as H1.
  pose proof (rounded_le _ _ _ Hr Ng ltac:(rewrite Vg; lra)) as H2.
  rewrite Vg in H1, H2.
  apply int_of_float_floor; [apply Hr|lra|lia].
Qed.

(** The accuracy bonus: the product by the double nearest to 1.3 lies
    between 130 times the count and that plus a half. *)
Lemma accuracy_bonus_trunc c :
  0 < c <= 2 ^ 44 ->
  int_of_float (fmul (float_of_int (c * 100)) (float_lit 13 10)) = c * 130.
Proof.
  intros Hc. rewrite lit_1_3_eq.
  destruct (float_of_int_exact (c * 100) ltac:(lia)) as [Nx Vx].
  destruct lit_1_3_val as [Ny Vy].
  destruct (float_of_int_exact (c * 130) ltac:(lia)) as [Ng Vg].
  destruct (normalize_exact (c * 260 + 1) (-1) ltac:(lia) ltac:(lia)) as [Nh Vh].
  assert (Hr : rounded (F2R (float_of_int (c * 100)) * F2R lit_1_3)
                       (fmul (float_of_int (c * 100)) lit_1_3)).
  { apply fmul_val; try done.
    - rewrite Vx. apply IZR_in_range; lia.
    - apply (const_in_range _ _ Vy). lra. }
  rewrite Vx, Vy in Hr.
  assert (Hc1 : (1 <= IZR c)%R) by (apply IZR_le; lia).
  assert (Hc2 : (IZR c <= IZR (2 ^ 44))%R) by (apply IZR_le; lia).
  change (2 ^ 44) with 17592186044416 in Hc2.
  bpow_neg_const 1%positive.
  rewrite plus_IZR, mult_IZR in Vh. rewrite mult_IZR in Vg.
  rewrite mult_IZR in Hr.
  pose proof (rounded_ge _ _ _ Hr Ng ltac:(rewrite Vg; lra)) as H1.
  pose proof (rounded_le _ _ _ Hr Nh ltac:(rewrite Vh; lra)) as H2.
  rewrite Vg in H1. rewrite Vh in H2.
  apply int_of_float_floor; [apply Hr|rewrite mult_IZR; lra|lia].
Qed.

(** Below a float whose mantissa is not the least one, the next float is
    one unit in the last place away. *)
Lemma F2R_pred f mg eg :
  pos_normal f -> Z.pos (digits2_pos mg) = 53 -> Z.pos mg <> 2 ^ 52 ->
  (F2R f < F2R (S754_finite false mg eg))%R ->
  (F2R f <= F2R (S754_finite false mg eg) - bpow eg)%R.
Proof.
  destruct f as [| | |[|] mf ef]; try done. intros [Hdf _] Hdg N52 Hlt.
  destruct (pos_normal_bounds mf ef Hdf) as [[Lf Uf] [Lzf Uzf]].
  destruct (pos_normal_bounds mg eg Hdg) as [[Lg Ug] [Lzg Uzg]].
  pose proof (bpow_pos eg) as Hpg.
  destruct (Z.lt_trichotomy ef eg) as [Hc|[->|Hc]].
  - simpl in *.
    assert (bpow (53 + ef) <= bpow (52 + eg))%R by (apply bpow_le; lia).
    assert (Hmg : (IZR (2 ^ 52) + 1 <= IZR (Z.pos mg))%R)
      by (rewrite <- plus_IZR; apply IZR_le; lia).
    rewrite (bpow_add 52 eg) in *. rewrite (bpow_IZR 52) in * by lia. nra.
  - apply F2R_lt_same in Hlt. simpl.
    assert (IZR (Z.pos mf) + 1 <= IZR (Z.pos mg))%R
      by (rewrite <- plus_IZR; apply IZR_le; lia). nra.
  - pose proof (F2R_lt_exp mg eg mf ef Hdg Hdf Hc). lra.
Qed.

(** The half-unit bound of a rounding whose result is below [bpow b]. *)
Lemma rounded_err x f b :
  rounded x f -> (F2R f < bpow b)%R -> (Rabs (F2R f - x) <= bpow (b - 53) / 2)%R.
Proof.
  intros [Hf Hr] Hb. destruct f as [| | |[|] mf ef]; try done.
  destruct Hr as [Herr _]. destruct Hf as [Hdf _].
  destruct (pos_normal_bounds mf ef Hdf) as [[Lf Uf] _].
  assert (Hlt : (bpow (52 + ef) < bpow b)%R) by (simpl in Hb; lra).
  apply bpow_lt_inv in Hlt.
  assert (bpow ef <= bpow (b - 53))%R by (apply bpow_le; lia). lra.
Qed.

(** The accuracy test: the quotient of the two counts, rounded, is at
    least the double nearest to 0.9 exactly when nine times the total is
    at most ten times the correct count. *)
Lemma accuracy_threshold c t :
  0 < c <= 2 ^ 44 -> 0 < t <= 2 ^ 44 ->
  fge (fdiv (float_of_int c) (float_of_int t)) (float_lit 9 10)
  = (9 * t <=? 10 * c).
Proof.
  intros Hc Ht. rewrite lit_0_9_eq. unfold fge.
  destruct (float_of_int_exact c ltac:(lia)) as [Nc Vc].
  destruct (float_of_int_exact t ltac:(lia)) as [Nt Vt].
  destruct lit_0_9_val as [N9 V9].
  assert (Hr : rounded (F2R (float_of_int c) / F2R (float_of_int t))
                       (fdiv (float_of_int c) (float_of_int t))).
  { apply fdiv_val; try done.
    - rewrite Vc. apply IZR_in_range; lia.
    - rewrite Vt. apply IZR_in_range; lia. }
  rewrite Vc, Vt in Hr.
  set (acc := fdiv (float_of_int c) (float_of_int t)) in *.
  assert (Nacc : pos_normal acc) by apply Hr.
  assert (HC1 : (1 <= IZR c)%R) by (apply IZR_le; lia).
  assert (HC2 : (IZR c <= 17592186044416)%R) by (apply IZR_le; lia).
  assert (HT1 : (1 <= IZR t)%R) by (apply IZR_le; lia).
  assert (HT2 : (IZR t <= 17592186044416)%R) by (apply IZR_le; lia).
  assert (HX : (IZR c / IZR t * IZR t = IZR c)%R) by (field; lra).
  set (X := (IZR c / IZR t)%R) in *.
  destruct (Z.leb_spec (9 * t) (10 * c)) as [Hge|Hlt].
  - apply SFleb_normal; [done|done|]. rewrite V9.
    assert (HZ : (9 * IZR t <= 10 * IZR c)%R)
      by (rewrite <- !mult_IZR; apply IZR_le; lia).
    destruct (Rle_lt_dec (8106479329266893 / 9007199254740992) X) as [Hx|Hx].
    + rewrite <- V9. apply (rounded_ge X acc lit_0_9 Hr N9). by rewrite V9.
    + (* the quotient is 9/10 exactly *)
      assert (Heq : 10 * c = 9 * t).
      { assert (Hz : (IZR (c * 9007199254740992) < IZR (8106479329266893 * t))%R).
        { rewrite !mult_IZR. nra. }
        apply lt_IZR in Hz. lia. }
      assert (HX9 : (X = 9 / 10)%R).
      { assert (10 * IZR c = 9 * IZR t)%R by (rewrite <- !mult_IZR; by f_equal).
        nra. }
      destruct (Rle_lt_dec (8106479329266893 / 9007199254740992) (F2R acc))
        as [|Hbad]; [done|exfalso].
      rewrite <- V9 in Hbad.
      pose proof (F2R_pred acc 8106479329266893 (-53) Nacc eq_refl
                    ltac:(done) Hbad) as Hp.
      assert (Hlt1 : (F2R acc < bpow 0)%R).
      { change (bpow 0) with 1%R. rewrite V9 in Hbad. lra. }
      pose proof (rounded_err X acc 0 Hr Hlt1) as He.
      apply Rabs_bound in He. change (0 - 53) with (-53) in He.
      fold lit_0_9 in Hp. rewrite V9 in Hp.
      bpow_neg_const 53%positive. lra.
  - destruct (SFleb lit_0_9 acc) eqn:Hle; [exfalso|done].
    apply SFleb_normal in Hle; [|done|done]. rewrite V9 in Hle.
    assert (HZ : (10 * IZR c <= 9 * IZR t - 1)%R).
    { rewrite <- !mult_IZR, <- minus_IZR. apply IZR_le. lia. }
    assert (HXu : (X <= 9 / 10 - 1 / 175921860444160)%R) by nra.
    destruct (float_of_int_exact 1 ltac:(lia)) as [N1 V1].
    pose proof (rounded_le X acc _ Hr N1 ltac:(rewrite V1; lra)) as Hone.
    rewrite V1 in Hone.
    assert (Hlt1 : (F2R acc < bpow 1)%R).
    { rewrite (bpow_IZR 1) by lia. change (2 ^ 1) with 2. lra. }
    pose proof (rounded_err X acc 1 Hr Hlt1) as He.
    apply Rabs_bound in He. change (1 - 53) with (-52) in He.
    bpow_neg_const 52%positive. lra.
Qed.

Lemma float_of_int_finite z :
  0 < z < 2 ^ 53 -> exists m e, float_of_int z = S754_finite false m e.
Proof.
  intros Hz. destruct (float_of_int_exact z Hz) as [N _].
  destruct (float_of_int z) as [| | |[|] m e]; try done. by exists m, e.
Qed.

(** C4 (amended).  For every mode, every average time and all counts of
    correct and total attempts between 0 and 2^44, [CalculateScore]
    returns [correct * 100], multiplied by 1.5 in rapid-fire mode when
    the average time is below 5.0, multiplied by 1.3 in total-game mode
    when the accuracy is at least 0.9, unmultiplied otherwise, the result
    truncated toward zero. *)
Theorem CalculateScore_in_range mode c t avg :
  0 <= c <= 2 ^ 44 -> 0 <= t <= 2 ^ 44 ->
  modes.CalculateScore mode c t avg = score_spec mode c t avg.
Proof.
  unfold score_spec.
  intros Hc Ht. unfold modes.CalculateScore.
  rewrite int_wrap_id by (unfold is_int, int_min, int_max; lia).
  replace (c * 100 * 15) with (c * 150 * 10) by lia.
  replace (c * 100 * 13) with (c * 130 * 10) by lia.
  rewrite !Z.quot_mul by lia.
  destruct (String.eqb mode modes.ModeRapidFire).
  { destruct (flt avg (float_lit 5 1)); [|done].
    destruct (Z.eq_dec c 0) as [->|Hc0]; [by rewrite lit_1_5_eq|].
    apply speed_bonus_exact. lia. }
  destruct (String.eqb mode modes.ModeTotalGame); [|done].
  destruct (Z.eq_dec c 0) as [->|Hc0].
  { destruct (Z.eq_dec t 0) as [->|Ht0]; [by rewrite lit_0_9_eq|].
    destruct (float_of_int_finite t ltac:(lia)) as (m & e & ->).
    rewrite lit_0_9_eq. simpl. by destruct (9 * t <=? 10 * 0). }
  destruct (Z.eq_dec t 0) as [->|Ht0].
  { destruct (float_of_int_finite c ltac:(lia)) as (m & e & Ef).
    rewrite Ef at 1. rewrite lit_0_9_eq. cbn [fdiv SFdiv float_of_int binary_normalize xorb].
    change (fge (S754_infinity false) lit_0_9) with true. cbv iota.
    destruct (Z.leb_spec (9 * 0) (10 * c)); [|lia].
    apply accuracy_bonus_trunc. lia. }
  rewrite accuracy_threshold by lia.
  destruct (Z.leb_spec (9 * t) (10 * c)); [|done].
  apply accuracy_bonus_trunc. lia.
Qed.


(** The two scores of the specification. *)
Lemma CalculateScore_in_range_witness :
  modes.CalculateScore modes.ModeRapidFire 5 6 (float_lit 3 1) = 750
  /\ modes.CalculateScore modes.ModeTotalGame 9 10 (float_lit 7 1) = 1170.
Proof.
  split.
  - rewrite (CalculateScore_in_range modes.ModeRapidFire 5 6 (float_lit 3 1));
      [reflexivity|lia|lia].
  - rewrite (CalculateScore_in_range modes.ModeTotalGame 9 10 (float_lit 7 1));
      [reflexivity|lia|lia].
Defined.

(** C4 as stated, for all non-negative counts, fails: with
    60047995031606671 correct attempts in rapid-fire mode the product
    by 1.5 is rounded to a double, 458 below the exact score; with
    92233720368547759 correct attempts the base score itself wraps
    around. *)
Lemma CalculateScore_beyond_range :
  ~ (forall mode c t avg, 0 <= c -> 0 <= t ->
       modes.CalculateScore mode c t avg = score_spec mode c t avg).
Proof.
  intros H.
  specialize (H modes.ModeRapidFire 60047995031606671 60047995031606671
                (float_lit 3 1) ltac:(lia) ltac:(lia)).
  vm_compute in H. discriminate.
Qed.

(** The base score of 92233720368547759 correct attempts wraps around. *)
Lemma CalculateScore_wraps :
  modes.CalculateScore modes.ModeRoundRobin 92233720368547759 92233720368547759
    (float_lit 3 1) = -9223372036854775716.
Proof. vm_compute. reflexivity. Qed.

(** ** Ranking points *)

Lemma lit_0_1_eq : float_lit 1 10 = lit_0_1.
Proof. vm_compute. reflexivity. Qed.
Lemma lit_1_eq : float_lit 1 1 = lit_1.
Proof. vm_compute. reflexivity. Qed.

Lemma lit_0_1_val :
  pos_normal lit_0_1
  /\ (F2R lit_0_1 = 7205759403792794 / 72057594037927936)%R.
Proof.
  lit_value lit_0_1 56%positive.
Qed.

Lemma lit_1_val : pos_normal lit_1 /\ (F2R lit_1 = 1)%R.
Proof.
  lit_value lit_1 52%positive.
Qed.

(** A rounding of a positive value stays within a factor [1 ± 2^-52] of
    it. *)
Lemma rounded_interval x f :
  rounded x f ->
  (x * (1 - / 4503599627370496) <= F2R f <= x * (1 + / 4503599627370496))%R.
Proof.
  intros Hr. destruct (rounded_rel x f Hr) as [He Hpos].
  apply Rabs_bound in He.
  bpow_neg_const 53%positive.
  split; nra.
Qed.

Lemma value_in_range v :
  (/ 1024 <= v < 1099511627776)%R ->
  (bpow (-10) <= v < bpow 50)%R /\ (bpow (-500) <= v < bpow 500)%R.
Proof.
  intros Hv.
  assert (bpow (-500) <= bpow (-10))%R by (by apply bpow_le).
  assert (bpow 50 <= bpow 500)%R by (by apply bpow_le).
  bpow_neg_const 10%positive. rewrite (bpow_IZR 50) in * by lia.
  change (2 ^ 10) with 1024 in *. change (2 ^ 50) with 1125899906842624 in *.
  lra.
Qed.

(** The floating-point product of [CalculatePoints] is within a quarter
    of the exact one. *)
Lemma points_product_close B k tmf tv :
  (B = 30 \/ B = 15 \/ B = 5) -> 1 <= k <= 2 ^ 31 ->
  pos_normal tmf -> F2R tmf = tv -> (tv = 1 \/ tv = 3 / 2)%R ->
  let d := fmul (fmul (float_of_int B)
                      (fadd lit_1 (fmul (float_of_int k) lit_0_1))) tmf in
  pos_normal d
  /\ (Rabs (F2R d - IZR B * (1 + IZR k / 10) * tv) < / 4)%R.
Proof.
  intros HB Hk Ntm Vtm Htv d.
  destruct (float_of_int_exact k ltac:(lia)) as [Nk Vk].
  destruct (float_of_int_exact B ltac:(lia)) as [NB VB].
  destruct lit_0_1_val as [N01 V01]. destruct lit_1_val as [N1 V1].
  assert (HK1 : (1 <= IZR k)%R) by (apply IZR_le; lia).
  assert (HK2 : (IZR k <= 2147483648)%R) by (apply IZR_le; lia).
  (* a = k * 0.1 *)
  assert (Ra : rounded (F2R (float_of_int k) * F2R lit_0_1)
                       (fmul (float_of_int k) lit_0_1)).
  { apply fmul_val; try done.
    - rewrite Vk. apply IZR_in_range; lia.
    - apply (const_in_range _ _ V01). lra. }
  set (a := fmul (float_of_int k) lit_0_1) in *.
  pose proof (rounded_interval _ _ Ra) as Ia. rewrite Vk, V01 in Ia.
  (* b = 1 + a *)
  assert (Rb : rounded (F2R lit_1 + F2R a) (fadd lit_1 a)).
  { apply fadd_val; [done|apply Ra| |].
    - rewrite V1. apply value_in_range. lra.
    - apply value_in_range. lra. }
  set (b := fadd lit_1 a) in *.
  pose proof (rounded_interval _ _ Rb) as Ib. rewrite V1 in Ib.
  (* c = B * b *)
  assert (HBr : (IZR B = 30 \/ IZR B = 15 \/ IZR B = 5)%R).
  { destruct HB as [ -> | [ -> | -> ] ]; auto. }
  assert (Rc : rounded (F2R (float_of_int B) * F2R b) (fmul (float_of_int B) b)).
  { apply fmul_val; [done|apply Rb| |].
    - rewrite VB. apply IZR_in_range; lia.
    - apply value_in_range. lra. }
  set (c := fmul (float_of_int B) b) in *.
  pose proof (rounded_interval _ _ Rc) as Ic. rewrite VB in Ic.
  (* d = c * tm *)
  assert (Rd : rounded (F2R c * F2R tmf) (fmul c tmf)).
  { apply fmul_val; [apply Rc|done| |].
    - apply value_in_range. destruct HBr as [E|[E|E]]; rewrite E in Ic; lra.
    - rewrite Vtm. apply value_in_range. destruct Htv; lra. }
  pose proof (rounded_interval _ _ Rd) as Id. rewrite Vtm in Id.
  split; [apply Rd|]. fold d in Id.
  apply Rabs_def1;
    destruct HBr as [E|[E|E]]; rewrite E in *;
    destruct Htv as [E'|E']; rewrite E' in *; lra.
Qed.

Lemma floor_half_exists (v : R) :
  exists z, (IZR z <= v + / 2 < IZR z + 1)%R.
Proof.
  exists (up (v + / 2) - 1). destruct (archimed (v + / 2)) as [H1 H2].
  rewrite minus_IZR. lra.
Qed.

(** [CalculatePoints] returns an integer nearest to the exact product. *)
Lemma CalculatePoints_nearest placement playerCount isTournament :
  playerCount <= 2 ^ 31 ->
  nearest_points placement playerCount isTournament
    (ranking.CalculatePoints placement playerCount isTournament).
Proof.
  unfold nearest_points.
  intros Hpc. unfold ranking.CalculatePoints, ranking.basePointsOf, placementPoints.
  assert (Hsmall : forall B, (B = 30 \/ B = 15 \/ B = 5) ->
    Z.abs (20 * int_of_float
                  (Round (fmul (fmul (float_of_int B)
                                     (ranking.playerMultiplierOf playerCount))
                               (ranking.tournamentMultiplierOf isTournament)))
           - B * (10 + Z.max 0 (playerCount - 2))
             * (if isTournament then 3 else 2)) <= 10).
  { intros B HB. unfold ranking.playerMultiplierOf.
    destruct (Z.ltb_spec 2 playerCount) as [Hgt|Hle].
    - rewrite int_wrap_id by (unfold is_int, int_min, int_max; lia).
      rewrite lit_1_eq, lit_0_1_eq.
      set (k := playerCount - 2) in *.
      assert (Hk : 1 <= k <= 2 ^ 31) by (unfold k; lia).
      replace (Z.max 0 k) with k by lia.
      set (tv := (if isTournament then 3 / 2 else 1)%R).
      assert (Ntm : pos_normal (ranking.tournamentMultiplierOf isTournament)
                    /\ F2R (ranking.tournamentMultiplierOf isTournament) = tv).
      { unfold ranking.tournamentMultiplierOf, tv. destruct isTournament.
        - rewrite lit_1_5_eq. apply lit_1_5_val.
        - rewrite lit_1_eq. apply lit_1_val. }
      destruct Ntm as [Ntm Vtm].
      assert (Htv : (tv = 1 \/ tv = 3 / 2)%R)
        by (unfold tv; destruct isTournament; auto).
      destruct (points_product_close B k _ tv HB Hk Ntm Vtm Htv) as [Nd Hd].
      set (d := fmul (fmul (float_of_int B)
                           (fadd lit_1 (fmul (float_of_int k) lit_0_1)))
                     (ranking.tournamentMultiplierOf isTournament)) in *.
      destruct (floor_half_exists (F2R d)) as [z Hz].
      apply Rabs_def2 in Hd.
      assert (HK1 : (1 <= IZR k)%R) by (apply IZR_le; lia).
      assert (HK2 : (IZR k <= 2147483648)%R) by (apply IZR_le; lia).
      assert (HBr : (IZR B = 30 \/ IZR B = 15 \/ IZR B = 5)%R).
      { destruct HB as [ -> | [ -> | -> ] ]; auto. }
      assert (Hz0 : 0 <= z < 2 ^ 62).
      { assert (H1 : (IZR (-1) < IZR z)%R)
          by (destruct HBr as [E|[E|E]]; rewrite E in *;
              destruct Htv as [E'|E']; rewrite E' in *; lra).
        assert (H2 : (IZR z < IZR (2 ^ 40))%R)
          by (change (2 ^ 40) with 1099511627776;
              destruct HBr as [E|[E|E]]; rewrite E in *;
              destruct Htv as [E'|E']; rewrite E' in *; lra).
        apply lt_IZR in H1, H2. lia. }
      rewrite (int_of_Round d z Nd Hz Hz0).
      assert (Hlo : (IZR (-15) < IZR (20 * z - B * (10 + k)
                                       * (if isTournament then 3 else 2)))%R).
      { rewrite minus_IZR, !mult_IZR, plus_IZR.
        unfold tv in *.
        destruct isTournament; destruct HBr as [E|[E|E]]; rewrite E in *; lra. }
      assert (Hhi : (IZR (20 * z - B * (10 + k)
                          * (if isTournament then 3 else 2)) < IZR 15)%R).
      { rewrite minus_IZR, !mult_IZR, plus_IZR.
        unfold tv in *.
        destruct isTournament; destruct HBr as [E|[E|E]]; rewrite E in *; lra. }
      apply lt_IZR in Hlo, Hhi.
      destruct isTournament; destruct HB as [ -> | [ -> | -> ] ]; lia.
    - replace (Z.max 0 (playerCount - 2)) with 0 by lia.
      destruct isTournament; destruct HB as [ -> | [ -> | -> ] ];
        vm_compute; discriminate. }
  destruct (placement =? 1); [apply Hsmall; auto|].
  destruct (placement =? 2); [apply Hsmall; auto|].
  destruct (placement =? 3); [apply Hsmall; auto|].
  simpl. lia.
Qed.

(** [CalculateNewRating] clamps the sum when the sum does not wrap. *)
Lemma CalculateNewRating_clamps currentRating pointsEarned :
  is_int (currentRating + pointsEarned) ->
  ranking.CalculateNewRating currentRating pointsEarned
  = clamp 0 1200 (currentRating + pointsEarned).
Proof.
  intros Hi. unfold ranking.CalculateNewRating, clamp. rewrite int_wrap_id by done.
  destruct (Z.ltb_spec 1200 (currentRating + pointsEarned)); [lia|].
  destruct (Z.ltb_spec (currentRating + pointsEarned) 0); lia.
Qed.


(** C5 (amended).  For every placement and tournament flag and every
    player count up to 2^31, [CalculatePoints] returns an integer nearest
    to 30, 15 or 5 (first, second, third place; 0 for any other
    placement) scaled by [1 + 0.1 * (playerCount - 2)] when
    [playerCount > 2] and by 1.5 for a tournament; and
    [CalculateNewRating] returns [currentRating + pointsEarned] clamped
    into [0, 1200] whenever that sum is a 64-bit integer. *)
Theorem CalculatePoints_and_rating_in_range placement playerCount isTournament
    currentRating pointsEarned :
  playerCount <= 2 ^ 31 -> is_int (currentRating + pointsEarned) ->
  nearest_points placement playerCount isTournament
    (ranking.CalculatePoints placement playerCount isTournament)
  /\ ranking.CalculateNewRating currentRating pointsEarned
     = clamp 0 1200 (currentRating + pointsEarned).
Proof.
  intros Hpc Hi. split.
  - by apply CalculatePoints_nearest.
  - by apply CalculateNewRating_clamps.
Qed.

Lemma CalculatePoints_and_rating_in_range_witness :
  ranking.CalculatePoints 1 8 true = 72
  /\ nearest_points 1 8 true (ranking.CalculatePoints 1 8 true)
  /\ ranking.CalculateNewRating 1190 30 = clamp 0 1200 (1190 + 30).
Proof.
  split; [reflexivity|].
  apply (CalculatePoints_and_rating_in_range 1 8 true 1190 30).
  - lia.
  - unfold is_int, int_min, int_max. lia.
Defined.

(** At an exact half the result may be the lower neighbour: second place
    among 33 players is worth 15 * 4.1 = 61.5 points and 61 are
    returned. *)
Lemma CalculatePoints_half_rounds_down : ranking.CalculatePoints 2 33 false = 61.
Proof. vm_compute. reflexivity. Qed.

(** C5 as stated, for every player count and every rating, fails: the
    first place among 10000000000000005 players is worth
    30000000000000039 points and 30000000000000044 are returned; and
    the sum of the greatest integer and 1 wraps around, so that the new
    rating is 0 and not 1200. *)
Lemma CalculatePoints_and_rating_beyond_range :
  ~ (forall placement playerCount isTournament currentRating pointsEarned,
       nearest_points placement playerCount isTournament
         (ranking.CalculatePoints placement playerCount isTournament)
       /\ ranking.CalculateNewRating currentRating pointsEarned
          = clamp 0 1200 (currentRating + pointsEarned)).
Proof.
  intros H.
  destruct (H 1 10000000000000005 false 9223372036854775807 1) as [H1 H2].
  vm_compute in H2. discriminate.
Qed.

(** The points of the first place among 10000000000000005 players. *)
Lemma CalculatePoints_loses_precision :
  ranking.CalculatePoints 1 10000000000000005 false = 30000000000000044
  /\ ~ nearest_points 1 10000000000000005 false
        (ranking.CalculatePoints 1 10000000000000005 false).
Proof.
  split; [vm_compute; reflexivity|].
  unfold nearest_points. vm_compute. intros H. by apply H.
Qed.

(** ** The tests of the repository on the pure functions *)

Example TestCalculatePoints :
  ranking.CalculatePoints 1 8 true = 72 /\ ranking.CalculatePoints 3 12 false = 10.
Proof. split; vm_compute; reflexivity. Qed.

Example TestGetRankByPoints :
  map (fun p => ranking.Color (ranking.GetRankByPoints p))
      [0; 350; 550; 600; 800; 1000; 1050; 1200; 1300]
  = ["Gray"; "Violet"; "Indigo"; "Blue"; "Green"; "Yellow"; "Orange"; "Red";
     "Gray"]%string.
Proof. reflexivity. Qed.

Example TestCalculateNewRating :
  ranking.CalculateNewRating 1000 30 = 1030
  /\ ranking.CalculateNewRating 1190 30 = 1200
  /\ ranking.CalculateNewRating 1000 (-15) = 985
  /\ ranking.CalculateNewRating 10 (-20) = 0.
Proof. repeat split; reflexivity. Qed.

Example TestCalculateScore :
  modes.CalculateScore modes.ModeRoundRobin 5 7 (float_lit 6 1) = 500
  /\ modes.CalculateScore modes.ModeRapidFire 5 6 (float_lit 3 1) = 750
  /\ modes.CalculateScore modes.ModeTotalGame 9 10 (float_lit 7 1) = 1170.
Proof. repeat split; vm_compute; reflexivity. Qed.

Example TestValidateSettings :
  modes.ValidateSettings (settingsOf modes.ModeRoundRobin 16 5 0 5) = None
  /\ modes.ValidateSettings (settingsOf modes.ModeRoundRobin 40 5 0 5) <> None
  /\ modes.ValidateSettings (settingsOf modes.ModeRapidFire 2 0 (15 * Minute) 3) = None
  /\ modes.ValidateSettings (settingsOf modes.ModeRapidFire 3 0 (15 * Minute) 3) <> None
  /\ modes.ValidateSettings (settingsOf modes.ModeTotalGame 6 0 (30 * Minute) 7) = None
  /\ modes.ValidateSettings (settingsOf modes.ModeTotalGame 6 0 (30 * Minute) 11) <> None.
Proof. repeat split; done. Qed.

(** * Further properties of the code *)

(** ** The engine within a turn *)

Lemma Since_le_iff now t d :
  int_min <= d -> d < int_max -> (Since now t <= d <-> now - t <= d).
Proof. unfold Since, Sub. lia. Qed.

Lemma TurnTimeout_int : int_min <= TurnTimeout /\ TurnTimeout < int_max.
Proof. unfold TurnTimeout, Second, int_min, int_max. lia. Qed.

(** X1.  After [StartTurn] has fetched a word at instant [t0], an
    attempt read at instant [now] is judged exactly when
    [now - t0 <= TurnTimeout] (ten seconds, the bound included, a clock
    reading before [t0] too): the answer is then [EqualFold] of the
    attempt and the word; later the turn has timed out.
    [CheckTimeLimit] draws the same line. *)
Theorem attempt_judged_within_timeout dict t0 word wi g now attempt :
  GetWordInfo dict word = (Some wi, None) ->
  ValidateAttempt now attempt (fst (StartTurn dict t0 word g))
  = (if now - t0 <=? TurnTimeout
     then (EqualFold attempt (word_Word wi), None)
     else (false, Some ErrTurnTimedOut))
  /\ CheckTimeLimit now (fst (StartTurn dict t0 word g))
     = (now - t0 <=? TurnTimeout).
Proof.
  intros Hw. unfold StartTurn. rewrite Hw. simpl.
  unfold ValidateAttempt, CheckTimeLimit. simpl.
  destruct TurnTimeout_int as [H1 H2].
  pose proof (Since_le_iff now t0 TurnTimeout H1 H2) as Hs.
  destruct (Z.leb_spec (now - t0) TurnTimeout) as [Hle|Hgt].
  - apply Hs in Hle. split.
    + destruct (Z.ltb_spec TurnTimeout (Since now t0)); [lia|done].
    + by apply Z.leb_le.
  - assert (TurnTimeout < Since now t0) by (apply Z.nle_gt; intros Hc; apply Hs in Hc; lia).
    split.
    + destruct (Z.ltb_spec TurnTimeout (Since now t0)); [done|lia].
    + apply Z.leb_gt. lia.
Qed.

Lemma attempt_judged_within_timeout_witness :
  ValidateAttempt (10 * Second) "testing" (fst (StartTurn okDict 0 "TESTING" (NewGameEngine "g")))
  = (if 10 * Second - 0 <=? TurnTimeout
     then (EqualFold "testing" (word_Word testWord), None)
     else (false, Some ErrTurnTimedOut))
  /\ CheckTimeLimit (10 * Second) (fst (StartTurn okDict 0 "TESTING" (NewGameEngine "g")))
     = (10 * Second - 0 <=? TurnTimeout).
Proof.
  apply (attempt_judged_within_timeout okDict 0 "TESTING" testWord
           (NewGameEngine "g") (10 * Second) "testing").
  reflexivity.
Defined.




Lemma step_keeps_mask g op :
  unmasks op = false -> WordMasked g = true -> WordMasked (step g op) = true.
Proof.
  intros Hop Hm. destruct op; simpl in *; try discriminate; try done.
  - unfold StartNewTurn. by destruct (GetWordInfo dict EmptyString) as [w [e|]].
  - unfold StartTurn. by destruct (GetWordInfo dict word) as [w [e|]].
  - destruct (GetHint_cases dict hintType g)
      as [[-> _]|[[-> _]|[(w & e & _ & _ & _ & ->)|(w & h & _ & Hlt & _ & ->)]]];
      by simpl.
Qed.

(** X3.  Only [RevealWord] and [UnmaskWord] show the word: along
    any sequence of the other operations a masked word stays masked. *)
Theorem word_stays_masked ops : forall g,
  forallb (fun op => negb (unmasks op)) ops = true ->
  WordMasked g = true -> WordMasked (run g ops) = true.
Proof.
  induction ops as [|op ops IH]; intros g Hops Hm; [done|].
  simpl in Hops. apply andb_true_iff in Hops as [Hop Hops].
  apply negb_true_iff in Hop. unfold run in *. simpl.
  apply IH; [done|]. by apply step_keeps_mask.
Qed.

Lemma word_stays_masked_witness :
  WordMasked (run testEngine
                [OpGetHint okDict HintTypeDefinition; OpValidateAttempt 5 "x";
                 OpStartTurn okDict 7 "next"; OpCheckTimeLimit 8]) = true.
Proof.
  apply (word_stays_masked
           [OpGetHint okDict HintTypeDefinition; OpValidateAttempt 5 "x";
            OpStartTurn okDict 7 "next"; OpCheckTimeLimit 8] testEngine);
    reflexivity.
Defined.

(** ** Hints of the repository's dictionary *)

Lemma dictionaryService_GetHint_served word hintType :
  In hintType servedHintTypes ->
  dictionaryService_GetHint word hintType = (hintField word hintType, None).
Proof.
  unfold servedHintTypes. simpl.
  intros [<-|[<-|[<-|[<-|[<-|[]]]]]]; reflexivity.
Qed.

Lemma dictionaryService_GetHint_refused word hintType :
  ~ In hintType servedHintTypes ->
  dictionaryService_GetHint word hintType
  = (EmptyString, Some (ErrNew ("invalid hint type: " ++ hintType))).
Proof.
  unfold servedHintTypes, dictionaryService_GetHint. simpl. intros H.
  repeat match goal with
         | |- context [String.eqb ?a ?b] =>
             destruct (String.eqb_spec a b) as [->|?]; [exfalso; apply H; tauto|]
         end.
  reflexivity.
Qed.

(** X4.  With the dictionary service of the repository, a word
    set and the budget not used up, [GetHint] hands out the field of the
    word for the kinds definition, sentence, etymology, part_of_speech
    and pronunciation and counts it; for any other kind it returns the
    error of an invalid hint type and counts nothing.  Of the five kinds
    the game service draws from, example_sentence is the one that is not
    served. *)
Theorem GetHint_with_repository_dictionary lookup hintType g w :
  CurrentWord g = Some w -> 0 <= HintsUsed g < MaxHints ->
  GetHint (dictionaryService lookup) hintType g
  = (if bool_decide (In hintType servedHintTypes)
     then (counted g, (hintField w hintType, None))
     else (g, (EmptyString, Some (invalidHintType hintType))))
  /\ Forall (fun t => In t servedHintTypes <-> t <> HintTypeExampleSentence)
       hintTypes.
Proof.
  intros Hw Hh. split.
  - unfold GetHint. rewrite Hw.
    destruct (Z.leb_spec MaxHints (HintsUsed g)); [lia|]. simpl.
    case_bool_decide as Hin.
    + rewrite dictionaryService_GetHint_served by done. unfold counted.
      rewrite int_wrap_id, Hw; [done|].
      unfold MaxHints, is_int, int_min, int_max in *. lia.
    + by rewrite dictionaryService_GetHint_refused.
  - unfold hintTypes, servedHintTypes.
    repeat constructor; simpl; try tauto; try discriminate;
      intros H; try (exfalso; by apply H);
      repeat (destruct H as [H|H]; [discriminate|]); destruct H.
Qed.

Lemma GetHint_with_repository_dictionary_witness :
  GetHint (dictionaryService (fun _ => (Some testWord, None))) HintTypeExampleSentence testEngine
  = (testEngine, (EmptyString, Some (invalidHintType HintTypeExampleSentence)))
  /\ GetHint (dictionaryService (fun _ => (Some testWord, None))) HintTypeDefinition testEngine
  = (counted testEngine, ("A test word"%string, None)).
Proof.
  split.
  - apply (GetHint_with_repository_dictionary _ HintTypeExampleSentence testEngine testWord);
      [reflexivity | unfold MaxHints; simpl; lia].
  - apply (GetHint_with_repository_dictionary _ HintTypeDefinition testEngine testWord);
      [reflexivity | unfold MaxHints; simpl; lia].
Defined.

(** ** Sequences of service calls *)

Lemma call_fails s op : exists err, call s op = Returns (s, Some err).
Proof.
  destruct op; unfold call.
  - rewrite CreateGame_fails. by eexists.
  - rewrite JoinGame_fails. by eexists.
  - rewrite StartGame_fails. by eexists.
  - rewrite MakeAttempt_fails. by eexists.
  - rewrite service_GetHint_fails. by eexists.
  - rewrite GetGame_fails. by eexists.
Qed.

Lemma calls_change_nothing ops : forall s, calls s ops = Returns s.
Proof.
  induction ops as [|op ops IH]; intros s; simpl; [done|].
  destruct (call_fails s op) as [err ->]. apply IH.
Qed.

(** X5.  Every call of the game service ([CreateGame], [JoinGame],
    [StartGame], [MakeAttempt], [GetHint], [GetGame]) returns an error
    and leaves the service as it was, in every state and for every
    request; so does every sequence of calls: no row is written, no
    engine registered, no event emitted. *)
Theorem every_service_call_fails s ops op :
  calls s ops = Returns s
  /\ exists err, call s op = Returns (s, Some err).
Proof. split; [apply calls_change_nothing|apply call_fails]. Qed.

(** ** Authentication and the handler of attempts *)

(** X6.  [GetUserIDFromContext] reads back the identifier
    [SetUserIDInContext] stored, whatever the context held; the entry of
    the user is not touched by it, and an entry under [UserContextKey]
    does not change the identifier read. *)
Theorem user_id_round_trip ctx userID val :
  GetUserIDFromContext (SetUserIDInContext ctx userID) = userID
  /\ GetUser (SetUserIDInContext ctx userID) = GetUser ctx
  /\ GetUserIDFromContext (WithValue ctx UserContextKey val)
     = GetUserIDFromContext ctx.
Proof. repeat split. Qed.







Section AuthProperties.
Context {St : Type}.
Context (validate : string -> User + error).
Context (next : @Handler St).

Lemma RequireAuth_withUser r user st :
  RequireAuth next (withUser r user) st = next (withUser r user) st.
Proof. reflexivity. Qed.


(** X8.  [RequirePremium] asserts the type of the user without a
    check: behind [Middleware] alone a request without an Authorization
    header makes it panic.  Behind [RequireAuth] it does not: the
    request is answered 401 or 403, or it reaches the handler with a
    premium user in the context. *)
Theorem RequirePremium_needs_RequireAuth r st :
  Value (req_ctx r) UserContextKey = None ->
  (Authorization r = EmptyString ->
   Middleware validate (RequirePremium next) r st = Panics)
  /\ (Middleware validate (RequireAuth (RequirePremium next)) r st
      = Returns (st, StatusUnauthorized)
      \/ Middleware validate (RequireAuth (RequirePremium next)) r st
         = Returns (st, StatusForbidden)
      \/ exists user,
           user_IsPremium user = true
           /\ Middleware validate (RequireAuth (RequirePremium next)) r st
              = next (withUser r user) st).
Proof.
  intros Hctx. split.
  - intros Hh. unfold Middleware, RequirePremium. by rewrite Hh, Hctx.
  - unfold Middleware.
    destruct (String.eqb (Authorization r) EmptyString).
    { left. unfold RequireAuth. by rewrite Hctx. }
    destruct (Split (Authorization r) " ") as [|scheme [|token [|x l]]];
      try by left.
    destruct (negb _); [by left|].
    destruct (validate token) as [user|err]; [|by left].
    unfold RequireAuth, RequirePremium. simpl.
    destruct (user_IsPremium user) eqn:Hp; simpl.
    + right. right. by exists user.
    + right. by left.
Qed.
End AuthProperties.


Lemma RequirePremium_needs_RequireAuth_witness :
  Middleware (tokenOf testUser "abc") (RequirePremium (fun _ st => Returns (st, StatusOK)))
    {| Authorization := EmptyString; req_ctx := [] |} tt = Panics.
Proof.
  apply (proj1 (RequirePremium_needs_RequireAuth (tokenOf testUser "abc")
           (fun _ st => Returns (st, StatusOK))
           {| Authorization := EmptyString; req_ctx := [] |} tt eq_refl)).
  reflexivity.
Defined.

(** X9.  [Middleware] stores the user under [UserContextKey] and
    [Handler.MakeAttempt] reads the identifier under [userIDKey]: a
    request that arrives without an identifier in its context is
    answered 401 by the two together, whatever its token. *)
Theorem game_handler_behind_Middleware_is_unauthorized validate now gameID body r s :
  gameID <> EmptyString ->
  GetUserIDFromContext (req_ctx r) = EmptyString ->
  Middleware validate (handler_MakeAttempt now gameID body) r s
  = Returns (s, StatusUnauthorized).
Proof.
  intros Hg Hid.
  assert (Hh : forall r', GetUserIDFromContext (req_ctx r') = EmptyString ->
             handler_MakeAttempt now gameID body r' s = Returns (s, StatusUnauthorized)).
  { intros r' Hr. unfold handler_MakeAttempt.
    destruct (String.eqb_spec gameID EmptyString); [done|]. by rewrite Hr. }
  unfold Middleware.
  destruct (String.eqb (Authorization r) EmptyString); [by apply Hh|].
  destruct (Split (Authorization r) " ") as [|scheme [|token [|x l]]]; try done.
  destruct (negb _); [done|].
  destruct (validate token) as [user|err]; [|done].
  apply Hh. unfold withUser. simpl. exact Hid.
Qed.

Lemma game_handler_behind_Middleware_is_unauthorized_witness :
  Middleware (tokenOf testUser "abc")
    (handler_MakeAttempt Second "g1" (inl voiceRequest))
    {| Authorization := "Bearer abc"; req_ctx := [] |} activeService
  = Returns (activeService, StatusUnauthorized).
Proof.
  apply (game_handler_behind_Middleware_is_unauthorized (tokenOf testUser "abc")
           Second "g1" (inl voiceRequest)
           {| Authorization := "Bearer abc"; req_ctx := [] |} activeService).
  - discriminate.
  - reflexivity.
Defined.

(** X10.  [Handler.MakeAttempt] answers 400, 401 or 500, never 200,
    and leaves the service as it was; it answers 500 exactly when the
    request names a game, carries a user identifier and a well-formed
    attempt, the error being the one of the service. *)
Theorem handler_MakeAttempt_never_answers_OK now gameID body r s :
  exists status,
    handler_MakeAttempt now gameID body r s = Returns (s, status)
    /\ In status [StatusBadRequest; StatusUnauthorized; StatusInternalServerError]
    /\ (status = StatusInternalServerError
        <-> gameID <> EmptyString
            /\ GetUserIDFromContext (req_ctx r) <> EmptyString
            /\ exists req attempt, body = inl req /\ attemptOf req = inl attempt).
Proof.
  unfold handler_MakeAttempt.
  destruct (String.eqb_spec gameID EmptyString) as [Hg|Hg].
  { exists StatusBadRequest. split; [done|]. split; [simpl; tauto|].
    split; [discriminate|]. by intros [? _]. }
  destruct (String.eqb_spec (GetUserIDFromContext (req_ctx r)) EmptyString)
    as [Hu|Hu].
  { exists StatusUnauthorized. split; [done|]. split; [simpl; tauto|].
    split; [discriminate|]. by intros (_ & ? & _). }
  destruct body as [req|err].
  2:{ exists StatusBadRequest. split; [done|]. split; [simpl; tauto|].
      split; [discriminate|]. by intros (_ & _ & ? & ? & ? & _). }
  destruct (attemptOf req) as [attempt|status] eqn:Ha.
  - rewrite MakeAttempt_fails. exists StatusInternalServerError.
    split; [done|]. split; [simpl; tauto|].
    split; [|done]. intros _. repeat split; try done. by exists req, attempt.
  - assert (status = StatusBadRequest) as ->.
    { unfold attemptOf in Ha.
      destruct (String.eqb _ AttemptTypeText).
      - destruct (req_Text req); by inversion Ha.
      - destruct (String.eqb _ AttemptTypeVoice); [|by inversion Ha].
        destruct (_ =? _)%nat; by inversion Ha. }
    exists StatusBadRequest. split; [done|]. split; [simpl; tauto|].
    split; [discriminate|].
    intros (_ & _ & req' & attempt & [= <-] & Ha'). congruence.
Qed.

(** ** Settings and ranks *)

(** X11.  For every mode, known or not, the settings
    [DefaultSettings] returns carry the mode and pass
    [ValidateSettings]; they ask for no recording and are competitive
    except for rapid fire. *)
Theorem DefaultSettings_are_valid mode :
  modes.ValidateSettings (modes.DefaultSettings mode) = None
  /\ modes.Mode (modes.DefaultSettings mode) = mode
  /\ modes.RequiresRecording (modes.DefaultSettings mode) = false
  /\ modes.IsCompetitive (modes.DefaultSettings mode)
     = negb (String.eqb mode modes.ModeRapidFire).
Proof.
  unfold modes.DefaultSettings.
  destruct (String.eqb_spec mode modes.ModeRoundRobin) as [->|H1];
    [repeat split|].
  destruct (String.eqb_spec mode modes.ModeRapidFire) as [->|H2];
    [repeat split|].
  destruct (String.eqb_spec mode modes.ModeTotalGame) as [->|H3];
    [repeat split|].
  unfold modes.ValidateSettings, modes.IsCompetitive, modes.RequiresRecording.
  simpl.
  destruct (String.eqb_spec mode modes.ModeRoundRobin); [done|].
  destruct (String.eqb_spec mode modes.ModeRapidFire); [done|].
  destruct (String.eqb_spec mode modes.ModeTotalGame); [done|].
  repeat split.
Qed.

(** X12.  A game that [RequiresRecording] is a public tournament
    game that asked for recording, and [IsCompetitive]. *)
Theorem recorded_games_are_competitive st :
  modes.RequiresRecording st = true ->
  modes.IsCompetitive st = true
  /\ modes.IsTournament st = true /\ modes.IsPrivate st = false
  /\ modes.RecordGame st = true.
Proof.
  unfold modes.RequiresRecording, modes.IsCompetitive.
  destruct (modes.RecordGame st), (modes.IsPrivate st), (modes.IsTournament st);
    simpl; try discriminate. done.
Qed.

Lemma recorded_games_are_competitive_witness :
  modes.IsCompetitive recordedTournament = true
  /\ modes.IsTournament recordedTournament = true
  /\ modes.IsPrivate recordedTournament = false
  /\ modes.RecordGame recordedTournament = true.
Proof. apply (recorded_games_are_competitive recordedTournament). reflexivity. Defined.

(** X13.  [ValidateSettings] returns no error exactly for the
    settings whose word level, player count and time limit are within
    the bounds of their mode and which, in round robin, ask for a round
    at least; a mode it does not know is held to the word level only. *)
Theorem ValidateSettings_accepts_exactly st :
  modes.ValidateSettings st = None
  <-> ~ out_of_bounds st
      /\ (modes.Mode st = modes.ModeRoundRobin -> 1 <= modes.MaxRounds st).
Proof.
  split.
  - intros Hv. split.
    + intros Hb. by apply (ValidateSettings_rejects st Hb).
    + intros Hm. revert Hv. unfold modes.ValidateSettings. rewrite Hm. simpl.
      destruct (_ || _); [discriminate|].
      destruct (Z.ltb_spec (modes.MaxRounds st) 1); [discriminate|lia].
  - intros [Hb Hr]. by apply ValidateSettings_accepts.
Qed.

Ltac settle_leb :=
  repeat match goal with
         | |- context [?a <=? ?b] =>
             first [ rewrite (proj2 (Z.leb_le a b)) by lia
                   | rewrite (proj2 (Z.leb_gt a b)) by lia ]
         end.

(** The rank of a point total: the rank whose bounds hold it, or the
    first rank when none does. *)
Lemma GetRankByPoints_cases points :
  ((points < 0 \/ 1200 < points)
   /\ ranking.GetRankByPoints points = ranking.mkRank "Gray" 0 299)
  \/ (0 <= points <= 1200
      /\ In (ranking.GetRankByPoints points) ranking.Ranks
      /\ ranking.MinPoints (ranking.GetRankByPoints points) <= points
         <= ranking.MaxPoints (ranking.GetRankByPoints points)).
Proof.
  assert (H : points < 0 \/ 0 <= points <= 299 \/ 300 <= points <= 449
              \/ 450 <= points <= 599 \/ 600 <= points <= 749
              \/ 750 <= points <= 899 \/ 900 <= points <= 1049
              \/ 1050 <= points <= 1149 \/ 1150 <= points <= 1200
              \/ 1200 < points) by lia.
  unfold ranking.GetRankByPoints, ranking.Ranks. cbn [find ranking.MinPoints ranking.MaxPoints].
  destruct H as [H|[H|[H|[H|[H|[H|[H|[H|[H|H]]]]]]]]]; settle_leb; cbn;
    first [ left; split; [lia|reflexivity]
          | right; split; [lia|]; split; [tauto|lia] ].
Qed.

(** X14.  [GetRankByPoints] returns a rank of the table; for a
    total from 0 to 1200 it is the one rank whose bounds hold the total,
    and for any other total it is the first rank, Gray. *)
Theorem GetRankByPoints_brackets points :
  In (ranking.GetRankByPoints points) ranking.Ranks
  /\ (0 <= points <= 1200 ->
      ranking.MinPoints (ranking.GetRankByPoints points) <= points
      <= ranking.MaxPoints (ranking.GetRankByPoints points))
  /\ (points < 0 \/ 1200 < points ->
      ranking.GetRankByPoints points = ranking.mkRank "Gray" 0 299)
  /\ (forall rank, In rank ranking.Ranks ->
        ranking.MinPoints rank <= points <= ranking.MaxPoints rank ->
        rank = ranking.GetRankByPoints points).
Proof.
  destruct (GetRankByPoints_cases points) as [[Ho E]|(Hi & Hin & Hb)].
  - rewrite E. split; [simpl; tauto|]. split; [lia|]. split; [done|].
    intros rank Hr Hb. exfalso. unfold ranking.Ranks in Hr. simpl in Hr.
    repeat (destruct Hr as [<-|Hr]; [simpl in Hb; lia|]). destruct Hr.
  - split; [done|]. split; [done|]. split; [lia|].
    intros rank Hr Hb'. revert Hin Hb.
    generalize (ranking.GetRankByPoints points). intros rank' Hr' Hb.
    unfold ranking.Ranks in *. simpl in Hr, Hr'.
    repeat (destruct Hr as [<-|Hr]; [simpl in Hb';
      repeat (destruct Hr' as [<-|Hr']; [simpl in Hb; first [reflexivity|lia]|]);
      destruct Hr'|]).
    destruct Hr.
Qed.

(** X15.  For all ratings and points, wrap-around included,
    [CalculateNewRating] returns a rating from 0 to 1200, and
    [GetRankByPoints] gives it a rank of the table whose bounds hold
    it. *)
Theorem CalculateNewRating_within_ranks currentRating pointsEarned :
  0 <= ranking.CalculateNewRating currentRating pointsEarned <= 1200
  /\ In (ranking.GetRankByPoints (ranking.CalculateNewRating currentRating pointsEarned))
       ranking.Ranks
  /\ ranking.MinPoints
       (ranking.GetRankByPoints (ranking.CalculateNewRating currentRating pointsEarned))
     <= ranking.CalculateNewRating currentRating pointsEarned
     <= ranking.MaxPoints
          (ranking.GetRankByPoints (ranking.CalculateNewRating currentRating pointsEarned)).
Proof.
  assert (H : 0 <= ranking.CalculateNewRating currentRating pointsEarned <= 1200).
  { unfold ranking.CalculateNewRating.
    destruct (Z.ltb_spec 1200 (int_wrap (currentRating + pointsEarned))); [lia|].
    destruct (Z.ltb_spec (int_wrap (currentRating + pointsEarned)) 0); lia. }
  split; [done|].
  destruct (GetRankByPoints_cases (ranking.CalculateNewRating currentRating pointsEarned))
    as [[Ho _]|(_ & Hin & Hb)]; [lia|done].
Qed.

(** With two players or fewer the multiplier of the player count is 1. *)
Lemma CalculatePoints_few_players placement playerCount isTournament :
  playerCount <= 2 ->
  ranking.CalculatePoints placement playerCount isTournament
  = if isTournament then (3 * placementPoints placement + 1) / 2
    else placementPoints placement.
Proof.
  intros Hc. unfold ranking.CalculatePoints, ranking.playerMultiplierOf.
  rewrite (proj2 (Z.ltb_ge 2 playerCount)) by lia.
  unfold ranking.basePointsOf, placementPoints.
  destruct (placement =? 1); [by destruct isTournament; vm_compute|].
  destruct (placement =? 2); [by destruct isTournament; vm_compute|].
  destruct (placement =? 3); [by destruct isTournament; vm_compute|].
  by destruct isTournament.
Qed.

(** X16.  With two players or fewer (none or a negative count
    too) the player count earns no bonus: [CalculatePoints] returns 30,
    15, 5 for the places 1, 2, 3 and 0 for any other, and in a
    tournament 45, 23 and 8, the halves rounded up. *)
Theorem CalculatePoints_small_game placement playerCount isTournament :
  playerCount <= 2 ->
  ranking.CalculatePoints placement playerCount isTournament
  = if isTournament then (3 * placementPoints placement + 1) / 2
    else placementPoints placement.
Proof. apply CalculatePoints_few_players. Qed.

Lemma CalculatePoints_small_game_witness :
  ranking.CalculatePoints 2 2 true = 23 /\ ranking.CalculatePoints 1 0 false = 30.
Proof.
  split.
  - apply (CalculatePoints_small_game 2 2 true). lia.
  - apply (CalculatePoints_small_game 1 0 false). lia.
Defined.

(** X17.  For a player count below 2^31, [CalculatePoints] is
    never negative, a better place never earns less than the next one,
    a tournament never less than a plain game, and one more player never
    less. *)
Theorem CalculatePoints_is_monotone placement playerCount isTournament :
  playerCount < 2 ^ 31 ->
  0 <= ranking.CalculatePoints placement playerCount isTournament
  /\ (1 <= placement ->
      ranking.CalculatePoints (placement + 1) playerCount isTournament
      <= ranking.CalculatePoints placement playerCount isTournament)
  /\ ranking.CalculatePoints placement playerCount false
     <= ranking.CalculatePoints placement playerCount true
  /\ ranking.CalculatePoints placement playerCount isTournament
     <= ranking.CalculatePoints placement (playerCount + 1) isTournament.
Proof.
  intros Hc.
  pose proof (CalculatePoints_nearest placement playerCount isTournament ltac:(lia)) as H0.
  pose proof (CalculatePoints_nearest (placement + 1) playerCount isTournament ltac:(lia)) as H1.
  pose proof (CalculatePoints_nearest placement playerCount false ltac:(lia)) as H2.
  pose proof (CalculatePoints_nearest placement playerCount true ltac:(lia)) as H3.
  pose proof (CalculatePoints_nearest placement (playerCount + 1) isTournament ltac:(lia)) as H4.
  unfold nearest_points, placementPoints in *.
  assert (Hp : placement = 1 \/ placement = 2 \/ placement = 3
               \/ (placement <> 1 /\ placement <> 2 /\ placement <> 3 /\ 1 <= placement)
               \/ placement < 1) by lia.
  split; [|split; [|split]].
  - destruct Hp as [->|[->|[->|[Hp|Hp]]]]; simpl in H0;
      try (destruct isTournament; lia);
      (destruct (Z.eqb_spec placement 1); [lia|]);
      (destruct (Z.eqb_spec placement 2); [lia|]);
      (destruct (Z.eqb_spec placement 3); [lia|]); lia.
  - intros Hge.
    destruct Hp as [->|[->|[->|[Hp|Hp]]]]; simpl in H0, H1;
      try (destruct isTournament; lia).
    destruct (Z.eqb_spec placement 1); [lia|].
    destruct (Z.eqb_spec placement 2); [lia|].
    destruct (Z.eqb_spec placement 3); [lia|].
    destruct (Z.eqb_spec (placement + 1) 1); [lia|].
    destruct (Z.eqb_spec (placement + 1) 2); [lia|].
    destruct (Z.eqb_spec (placement + 1) 3); [lia|]. lia.
  - destruct Hp as [->|[->|[->|[Hp|Hp]]]]; simpl in H2, H3; try lia;
      (destruct (Z.eqb_spec placement 1); [lia|]);
      (destruct (Z.eqb_spec placement 2); [lia|]);
      (destruct (Z.eqb_spec placement 3); [lia|]); lia.
  - destruct (Z.le_gt_cases (playerCount + 1) 2) as [Hs|Hl].
    + rewrite !CalculatePoints_few_players by lia. lia.
    + destruct Hp as [->|[->|[->|[Hp|Hp]]]]; simpl in H0, H4;
        try (destruct isTournament; lia);
        (destruct (Z.eqb_spec placement 1); [lia|]);
        (destruct (Z.eqb_spec placement 2); [lia|]);
        (destruct (Z.eqb_spec placement 3); [lia|]); lia.
Qed.

Lemma CalculatePoints_is_monotone_witness :
  0 <= ranking.CalculatePoints 1 8 true
  /\ (1 <= 1 -> ranking.CalculatePoints (1 + 1) 8 true <= ranking.CalculatePoints 1 8 true)
  /\ ranking.CalculatePoints 1 8 false <= ranking.CalculatePoints 1 8 true
  /\ ranking.CalculatePoints 1 8 true <= ranking.CalculatePoints 1 (8 + 1) true.
Proof. apply (CalculatePoints_is_monotone 1 8 true). lia. Defined.

(** ** Spellings and transcripts *)

Lemma trimRight_idem s : trimRight (trimRight s) = trimRight s.
Proof.
  induction s as [|c s IH]; simpl; [done|].
  destruct (trimRight s) as [|d r] eqn:E.
  - destruct (isSpace c) eqn:Hc; simpl; [done|]. by rewrite Hc.
  - change (trimRight (String c (String d r)))
      with (match trimRight (String d r) with
            | EmptyString => if isSpace c then EmptyString else String c EmptyString
            | r0 => String c r0
            end).
    by rewrite IH.
Qed.

Lemma trimRight_head c s :
  isSpace c = false -> exists r, trimRight (String c s) = String c r.
Proof.
  intros Hc. simpl. destruct (trimRight s); [rewrite Hc|]; by eexists.
Qed.

Lemma TrimSpace_idem s : TrimSpace (TrimSpace s) = TrimSpace s.
Proof.
  unfold TrimSpace. pose proof (trimLeft_head s) as Hh.
  destruct (trimLeft s) as [|c x]; [done|].
  destruct (trimRight_head c x Hh) as [r Hr]. rewrite Hr.
  rewrite trimLeft_nonspace by done. rewrite <- Hr. apply trimRight_idem.
Qed.

(** X18.  [ValidateSpelling] is reflexive, symmetric and
    transitive, and white space around the word or around the attempt
    does not change its answer (on ASCII strings). *)
Theorem ValidateSpelling_is_an_equivalence word attempt other :
  ValidateSpelling word word = true
  /\ ValidateSpelling word attempt = ValidateSpelling attempt word
  /\ (ValidateSpelling word attempt = true ->
      ValidateSpelling attempt other = true ->
      ValidateSpelling word other = true)
  /\ ValidateSpelling (TrimSpace word) attempt = ValidateSpelling word attempt
  /\ ValidateSpelling word (TrimSpace attempt) = ValidateSpelling word attempt.
Proof.
  split; [by apply ValidateSpelling_lower|].
  split.
  { apply eq_true_iff_eq. rewrite !ValidateSpelling_lower. split; congruence. }
  split.
  { rewrite !ValidateSpelling_lower. congruence. }
  unfold ValidateSpelling. by rewrite !TrimSpace_idem.
Qed.

Lemma prefix_char c a s :
  String.prefix (String c EmptyString) (String a s)
  = if Ascii.ascii_dec c a then true else false.
Proof. simpl. destruct (Ascii.ascii_dec c a); [by destruct s|done]. Qed.

Lemma replaceFrom_char skip s c x :
  In x (chars (replaceFrom skip s (String c EmptyString) EmptyString)) ->
  In x (chars s) /\ (skip = O -> x <> c).
Proof.
  revert skip. induction s as [|a s IH]; intros skip; [done|].
  cbn [replaceFrom]. rewrite prefix_char. destruct skip as [|k].
  - destruct (Ascii.ascii_dec c a) as [->|Hne].
    + change (String.length (String a EmptyString) - 1)%nat with O.
      change (EmptyString ++ ?y)%string with y.
      intros H. destruct (IH _ H) as [H1 H2]. split; [by right|auto].
    + intros [<-|H].
      * split; [by left|]. intros _ E. by subst.
      * destruct (IH _ H) as [H1 H2]. split; [by right|auto].
  - intros H. destruct (IH _ H) as [H1 _]. split; [by right|done].
Qed.

Lemma ReplaceAll_char s c x :
  In x (chars (ReplaceAll s (String c EmptyString) EmptyString)) ->
  In x (chars s) /\ x <> c.
Proof.
  unfold ReplaceAll. intros H. destruct (replaceFrom_char _ _ _ _ H). auto.
Qed.

Lemma toLower_not_upper c : isUpper (toLower c) = false.
Proof.
  unfold toLower, isUpper.
  destruct (Z.leb_spec 65 (byte_of c)); simpl;
    [destruct (Z.leb_spec (byte_of c) 90); simpl|].
  - assert (Hb : byte_of (ascii_of_nat (Z.to_nat (byte_of c + 32))) = byte_of c + 32).
    { unfold byte_of at 1. rewrite nat_ascii_embedding; lia. }
    rewrite Hb. destruct (Z.leb_spec 65 (byte_of c + 32)); simpl; [|done].
    apply Z.leb_gt. lia.
  - destruct (Z.leb_spec 65 (byte_of c)); simpl; [|done]. apply Z.leb_gt. lia.
  - destruct (Z.leb_spec 65 (byte_of c)); [lia|done].
Qed.

Lemma ToLower_not_upper s x : In x (chars (ToLower s)) -> isUpper x = false.
Proof.
  induction s as [|c s IH]; simpl; [done|].
  intros [<-|H]; [apply toLower_not_upper|by apply IH].
Qed.

Lemma cleanTranscript_clean text x :
  In x (chars (cleanTranscript text)) ->
  isUpper x = false
  /\ x <> "."%char /\ x <> ","%char /\ x <> "!"%char /\ x <> "?"%char.
Proof.
  unfold cleanTranscript. intros H.
  apply ReplaceAll_char in H as [H H4].
  apply ReplaceAll_char in H as [H H3].
  apply ReplaceAll_char in H as [H H2].
  apply ReplaceAll_char in H as [H H1].
  apply ToLower_not_upper in H. done.
Qed.

(** X19.  When [TranscribeVoice] returns a text, the API answered
    200 with a body that decodes, and the text is the cleaned
    transcript: it holds no letter A-Z and none of the characters
    period, comma, exclamation mark, question mark. *)
Theorem TranscribeVoice_text_is_clean api decode voiceData text :
  TranscribeVoice api decode voiceData = (text, None) ->
  (exists resp raw, api voiceData = inl resp /\ StatusCode resp = StatusOK
                    /\ decode (Body resp) = inl raw
                    /\ text = cleanTranscript raw)
  /\ (forall x, In x (chars text) ->
        isUpper x = false
        /\ x <> "."%char /\ x <> ","%char /\ x <> "!"%char /\ x <> "?"%char).
Proof.
  unfold TranscribeVoice.
  destruct (api voiceData) as [resp|err]; [|discriminate].
  destruct (Z.eqb_spec (StatusCode resp) StatusOK) as [Hs|]; [|discriminate].
  simpl.
  destruct (decode (Body resp)) as [raw|err] eqn:Hd; [|discriminate].
  intros [= <-]. split.
  - by exists resp, raw.
  - apply cleanTranscript_clean.
Qed.

Lemma TranscribeVoice_text_is_clean_witness :
  TranscribeVoice (testApi "body") (testDecode "body" " T. E, S! T? ") [1; 2]
  = ("t e s t"%string, None)
  /\ (forall x, In x (chars "t e s t") ->
        isUpper x = false
        /\ x <> "."%char /\ x <> ","%char /\ x <> "!"%char /\ x <> "?"%char).
Proof.
  split; [reflexivity|].
  apply (TranscribeVoice_text_is_clean (testApi "body")
           (testDecode "body" " T. E, S! T? ") [1; 2] "t e s t").
  reflexivity.
Defined.

(** ** The lookup of a word *)

Lemma scanSenses_trimmed sseqs : forall example,
  TrimSpace example = example ->
  TrimSpace (fst (scanSenses sseqs example)) = fst (scanSenses sseqs example)
  /\ TrimSpace (snd (scanSenses sseqs example)) = snd (scanSenses sseqs example).
Proof.
  induction sseqs as [|sseq rest IH]; intros example He; simpl; [done|].
  destruct sseq as [|sense more]; [by apply IH|].
  assert (Hv : TrimSpace (fst (match VIS sense with
                               | [] => scanSenses rest example
                               | t :: _ => scanSenses rest (TrimSpace t)
                               end))
               = fst (match VIS sense with
                      | [] => scanSenses rest example
                      | t :: _ => scanSenses rest (TrimSpace t)
                      end)
               /\ TrimSpace (snd (match VIS sense with
                               | [] => scanSenses rest example
                               | t :: _ => scanSenses rest (TrimSpace t)
                               end))
               = snd (match VIS sense with
                      | [] => scanSenses rest example
                      | t :: _ => scanSenses rest (TrimSpace t)
                      end)).
  { destruct (VIS sense) as [|t ts]; apply IH; [done|apply TrimSpace_idem]. }
  destruct (DT sense) as [|[|x [|[def|] more']] dts]; try exact Hv.
  simpl. split; [apply TrimSpace_idem|done].
Qed.

(** X20.  When [GetWordInfo] returns a word, the API gave at least
    one entry; the spelling of the word is the string that was asked
    for (not a headword of the entry), its identifier is empty, its part
    of speech is the one of the first entry, and its definition and
    example sentence carry no white space around them. *)
Theorem GetWordInfo_returns_the_requested_word api word w :
  dictionaryService_GetWordInfo api word = (Some w, None) ->
  (exists entry more, api word = Entries (entry :: more)
                      /\ word_PartOfSpeech w = FL entry)
  /\ word_Word w = word
  /\ word_ID w = EmptyString
  /\ TrimSpace (word_Definition w) = word_Definition w
  /\ TrimSpace (word_ExampleSentence w) = word_ExampleSentence w.
Proof.
  unfold dictionaryService_GetWordInfo.
  destruct (api word) as [e|e|e|e|[|entry more]]; try discriminate.
  destruct (MWOD entry) as [|pron prons];
    (destruct (Def entry) as [|sseqs defs];
     [ intros [= <-]; simpl; split; [by eexists _, _|done]
     | pose proof (scanSenses_trimmed sseqs EmptyString eq_refl) as [H1 H2];
       destruct (scanSenses sseqs EmptyString) as [d x];
       intros [= <-]; simpl in *; split; [by eexists _, _|done] ]).
Qed.

Lemma GetWordInfo_returns_the_requested_word_witness :
  dictionaryService_GetWordInfo (fun _ => Entries [testEntry]) "Test"
  = (Some {| word_ID := EmptyString; word_Word := "Test";
             word_Definition := "a means of testing";
             word_ExampleSentence := EmptyString;
             word_Etymology := "Middle English from Latin testum";
             word_PartOfSpeech := "noun"; word_Pronunciation := "test";
             word_AudioURL :=
               "https://media.merriam-webster.com/audio/prons/en/us/mp3/t/test0001.mp3" |},
     None)
  /\ word_Word {| word_ID := EmptyString; word_Word := "Test";
             word_Definition := "a means of testing";
             word_ExampleSentence := EmptyString;
             word_Etymology := "Middle English from Latin testum";
             word_PartOfSpeech := "noun"; word_Pronunciation := "test";
             word_AudioURL :=
               "https://media.merriam-webster.com/audio/prons/en/us/mp3/t/test0001.mp3" |}
     = "Test"%string.
Proof.
  split; [reflexivity|].
  apply (GetWordInfo_returns_the_requested_word (fun _ => Entries [testEntry])
           "Test" _ eq_refl).
Defined.

Lemma EqualFold_refl s : EqualFold s s = true.
Proof. by apply EqualFold_lower. Qed.

(** X21.  With the dictionary service of the repository, a turn
    started on a word accepts, within the time limit, exactly the
    attempts that [EqualFold] matches with the string the turn was
    started on; that string itself is accepted. *)
Theorem requested_word_is_the_accepted_spelling api word w t0 now g attempt :
  dictionaryService_GetWordInfo api word = (Some w, None) ->
  now - t0 <= TurnTimeout ->
  ValidateAttempt now attempt
    (fst (StartTurn (dictionaryService (dictionaryService_GetWordInfo api))
            t0 word g))
  = (EqualFold attempt word, None)
  /\ ValidateAttempt now word
       (fst (StartTurn (dictionaryService (dictionaryService_GetWordInfo api))
               t0 word g))
     = (true, None).
Proof.
  intros Hw Hle.
  assert (Hword : word_Word w = word).
  { revert Hw. unfold dictionaryService_GetWordInfo.
    destruct (api word) as [e|e|e|e|[|entry more]]; try discriminate.
    destruct (MWOD entry), (Def entry) as [|sseqs defs];
      try destruct (scanSenses sseqs EmptyString); by intros [= <-]. }
  assert (H : forall a,
    ValidateAttempt now a
      (fst (StartTurn (dictionaryService (dictionaryService_GetWordInfo api))
              t0 word g))
    = (EqualFold a word, None)).
  { intros a. unfold StartTurn. simpl. rewrite Hw. simpl.
    rewrite (ValidateAttempt_open now a _ w t0); [by rewrite Hword|done|done|].
    unfold Since, Sub, TurnTimeout, Second, int_min, int_max in *. lia. }
  split; [apply H|]. rewrite H. by rewrite EqualFold_refl.
Qed.

Lemma requested_word_is_the_accepted_spelling_witness :
  ValidateAttempt 3 "tEST"
    (fst (StartTurn
            (dictionaryService
               (dictionaryService_GetWordInfo (fun _ => Entries [testEntry])))
            0 "Test" (NewGameEngine "g")))
  = (EqualFold "tEST" "Test", None)
  /\ ValidateAttempt 3 "Test"
       (fst (StartTurn
               (dictionaryService
                  (dictionaryService_GetWordInfo (fun _ => Entries [testEntry])))
               0 "Test" (NewGameEngine "g")))
     = (true, None).
Proof.
  apply (requested_word_is_the_accepted_spelling (fun _ => Entries [testEntry])
           "Test" _ 0 3 (NewGameEngine "g") "tEST" eq_refl).
  unfold TurnTimeout, Second. lia.
Defined.
